(** * Emmet stylesheet abbreviation resolver and tree walker

    A shallow embedding of [src/stylesheet/index.ts] (fuzzy dictionary
    matching, per-node resolution, field wrapping, numeric unit inference)
    and of the generic tree walker [walk], together with the properties
    established about them.

    Conventions.
    - JavaScript numbers that are only compared (fuzzy scores, the minimum
      score) or tested for being whole (numeric tokens) are rationals [Q].
    - [None : option string] stands for the JavaScript value [undefined]
      where the source can produce it ([node.name], a missing object key).
    - Strings are [string]; a character of a string is an [ascii].
    - In-place mutation of a node is explicit state passing: a function that
      mutates [node] returns the new node.
    - An object used as a map is a [gmap] of its own entries; a lookup by
      key also finds what a plain object inherits from [Object.prototype].
    - A [TypeError] raised by the source is the [Throw] result. *)

From Stdlib Require Import ZArith QArith String Ascii List Bool Lia.
From Stdlib Require Import DecimalString Lqa.
From stdpp Require Import gmap strings.
Import ListNotations.

Module Stylesheet.

Local Open Scope string_scope.
Local Open Scope list_scope.

(** ** Data model *)

(** Tokens of [@emmetio/css-abbreviation].  A [CSSValue] is the record
    [{ type: 'CSSValue', value: Value[] }]. *)
Inductive Quote : Type := single | double.

(** The members every plain object inherits from [Object.prototype]. *)
Inductive Member : Type :=
| ObjectConstructor
| DefineGetter
| DefineSetter
| HasOwnProperty
| LookupGetter
| LookupSetter
| IsPrototypeOf
| PropertyIsEnumerable
| ToString
| ValueOf
| Proto
| ToLocaleString.

Definition members : list Member :=
  [ObjectConstructor; DefineGetter; DefineSetter; HasOwnProperty;
   LookupGetter; LookupSetter; IsPrototypeOf; PropertyIsEnumerable;
   ToString; ValueOf; Proto; ToLocaleString].

(** The key under which a member is inherited. *)
Definition memberName (m : Member) : string :=
  match m with
  | ObjectConstructor => "constructor"
  | DefineGetter => "__defineGetter__"
  | DefineSetter => "__defineSetter__"
  | HasOwnProperty => "hasOwnProperty"
  | LookupGetter => "__lookupGetter__"
  | LookupSetter => "__lookupSetter__"
  | IsPrototypeOf => "isPrototypeOf"
  | PropertyIsEnumerable => "propertyIsEnumerable"
  | ToString => "toString"
  | ValueOf => "valueOf"
  | Proto => "__proto__"
  | ToLocaleString => "toLocaleString"
  end.

(** The text a member converts to where a string is wanted, as a property
    key or in a template literal.  All are functions but [__proto__],
    which reads as the prototype object; the text of a built-in function
    is the one V8 gives. *)
Definition memberText (m : Member) : string :=
  match m with
  | ObjectConstructor => "function Object() { [native code] }"
  | Proto => "[object Object]"
  | _ => "function " ++ memberName m ++ "() { [native code] }"
  end.

(** The member inherited under a key, if any. *)
Definition inherited (key : string) : option Member :=
  find (fun m => String.eqb (memberName m) key) members.

(** What the member [unit] of a number token holds.  The parser stores a
    string.  [resolveNumericValue] stores the value of
    [aliases[t.unit] || t.unit], and the lookup in the plain object
    [aliases] finds inherited members as well as configured aliases: the
    unit [constructor] is replaced by the function [Object], which is not a
    string. *)
Inductive Unit : Type :=
| Text (s : string)
| Inherited (m : Member).

Coercion Text : string >-> Unit.

(** JavaScript truthiness of a unit: a string that is not empty, or an
    object. *)
Definition truthyUnit (unit : Unit) : bool :=
  match unit with
  | Text EmptyString => false
  | _ => true
  end.

(** [String(unit)], the conversion a property key and a template literal
    apply. *)
Definition unitText (unit : Unit) : string :=
  match unit with
  | Text s => s
  | Inherited m => memberText m
  end.

Inductive Value : Type :=
| Literal (value : string)
| NumberValue (value : Q) (unit : Unit)
| ColorValue (r g b : Z) (a : Q) (raw : string)
| StringValue (value : string) (quote : Quote)
| FunctionCall (name : string) (arguments : list CSSValue)
| Field (index : nat) (name : string)
with CSSValue : Type :=
| mkCSSValue (value : list Value).

Definition css_value (v : CSSValue) : list Value :=
  match v with mkCSSValue value => value end.

(** [CSSProperty]: [name] is optional, [value] is the comma-separated list
    of values. *)
Record CSSProperty : Type := mkCSSProperty {
  node_name : option string;
  node_value : list CSSValue;
  node_important : bool
}.

Definition set_name (n : option string) (node : CSSProperty) : CSSProperty :=
  {| node_name := n; node_value := node_value node;
     node_important := node_important node |}.

Definition set_value (v : list CSSValue) (node : CSSProperty) : CSSProperty :=
  {| node_name := node_name node; node_value := v;
     node_important := node_important node |}.

(** Modelled from the spec: the snippet types, which [./snippets] declares.
    A raw snippet is a key with its output text; a property snippet is a
    key with the property name and the ordered list of its values, the
    first being the default.  The resolver stores [snippet.value[i]] in
    [node.value], so each of these values is a list of [CSSValue]. *)
Record CSSSnippetRaw : Type := mkRaw {
  raw_key : string;
  raw_value : string
}.

Record CSSSnippetProperty : Type := mkProperty {
  prop_key : string;
  property : string;
  prop_value : list (list CSSValue)
}.

Inductive CSSSnippet : Type :=
| Raw (s : CSSSnippetRaw)
| Property (s : CSSSnippetProperty).

Definition snippet_key (s : CSSSnippet) : string :=
  match s with
  | Raw r => raw_key r
  | Property p => prop_key p
  end.

(** Modelled from the spec: a keyword reference of [./snippets], a keyword
    with an index into the values of its snippet. *)
Record CSSKeywordRef : Type := mkKeywordRef {
  keyword : string;
  ref_index : nat
}.

(** [type MatchInput = CSSSnippet | CSSKeywordRef | string] and the bounded
    generic [T extends MatchInput]. *)
Inductive MatchInput : Type :=
| OfSnippet (s : CSSSnippet)
| OfKeywordRef (r : CSSKeywordRef)
| OfString (s : string).

Class Matchable (T : Type) : Type := matchInput : T -> MatchInput.

#[export] Instance Matchable_snippet : Matchable CSSSnippet := OfSnippet.
#[export] Instance Matchable_keywordRef : Matchable CSSKeywordRef := OfKeywordRef.
#[export] Instance Matchable_string : Matchable string := OfString.

(** Modelled from the spec: the members of [Config], which [../config]
    declares, that the resolver reads: [context] and the options
    [stylesheet.fuzzySearchMinScore], [stylesheet.unitAliases],
    [stylesheet.unitless], [stylesheet.intUnit], [stylesheet.floatUnit] and
    [stylesheet.keywords].  [unitAliases] holds the own entries of the
    alias object, a plain object. *)
Record Config : Type := mkConfig {
  context : option string;
  fuzzySearchMinScore : Q;
  unitAliases : gmap string string;
  unitless : list string;
  intUnit : string;
  floatUnit : string;
  keywords : list string
}.

(** Results of code that can raise. *)
Inductive Result (A : Type) : Type :=
| Ok (a : A)
| Throw.
Arguments Ok {A} a.
Arguments Throw {A}.

Definition bind {A B : Type} (r : Result A) (f : A -> Result B) : Result B :=
  match r with
  | Ok a => f a
  | Throw => Throw
  end.

Notation "'try' x <- r 'in' k" := (bind r (fun x => k))
  (at level 10, x name, r at level 100, k at level 200).

(** JavaScript truthiness of a string: non-empty. *)
Definition truthy (s : string) : bool :=
  match s with
  | EmptyString => false
  | String _ _ => true
  end.

(** ** Best-match resolver *)

(** [getScoringPart]: a string scores as itself, anything else by
    [keyword || key].  A keyword reference has no [key], so an empty keyword
    yields [undefined]; a snippet has no [keyword], so it yields its key. *)
Definition getScoringPart (item : MatchInput) : option string :=
  match item with
  | OfString s => Some s
  | OfKeywordRef r => if truthy (keyword r) then Some (keyword r) else None
  | OfSnippet s => Some (snippet_key s)
  end.

Section BestMatch.

(** The scorer of [./score]; it receives whatever values reach it. *)
Variable calculateScore : option string -> option string -> Q.

Context {T : Type} `{Matchable T}.

Definition scoreOf (abbr : option string) (item : T) : Q :=
  calculateScore abbr (getScoringPart (matchInput item)).

(** The [for] loop of [findBestMatch] with its two locals; the last line
    is the [return] after the loop. *)
Fixpoint findBestMatch_loop (abbr : option string) (items : list T)
    (minScore : Q) (matchedItem : option T) (maxScore : Q) : option T :=
  match items with
  | [] => if Qle_bool minScore maxScore then matchedItem else None
  | item :: rest =>
      let score := scoreOf abbr item in
      if Qeq_bool score 1%Q then Some item
      else if negb (Qeq_bool score 0%Q) && Qle_bool maxScore score
      then findBestMatch_loop abbr rest minScore (Some item) score
      else findBestMatch_loop abbr rest minScore matchedItem maxScore
  end.

(** [minScore = 0] is a default parameter: [None] is "not passed". *)
Definition findBestMatch (abbr : option string) (items : list T)
    (minScore : option Q) : option T :=
  findBestMatch_loop abbr items (default 0%Q minScore) None 0%Q.

End BestMatch.

(** ** Unmatched remainder *)

(** [str.indexOf(ch, fromIndex)] for one character: the first position at or
    after [fromIndex] that holds [ch]; [None] is the result [-1]. *)
Fixpoint indexOf (str : string) (ch : ascii) (fromIndex : nat) : option nat :=
  match str with
  | EmptyString => None
  | String c rest =>
      match fromIndex with
      | O => if Ascii.eqb c ch then Some O else option_map S (indexOf rest ch O)
      | S k => option_map S (indexOf rest ch k)
      end
  end.

(** [abbr.slice(i)]. *)
Definition slice (abbr : string) (i : nat) : string :=
  substring i (String.length abbr - i) abbr.

(** The loop of [getUnmatchedPart] on its two counters [i] and [lastPos];
    [i] grows by one per round, so [abbr.length] rounds are enough. *)
Fixpoint getUnmatchedPart_loop (rounds : nat) (abbr str : string)
    (i lastPos : nat) : string :=
  match rounds with
  | O => EmptyString
  | S rounds' =>
      match String.get i abbr with
      | None => EmptyString
      | Some ch =>
          match indexOf str ch lastPos with
          | None => slice abbr i
          | Some pos => getUnmatchedPart_loop rounds' abbr str (S i) (S pos)
          end
      end
  end.

Definition getUnmatchedPart (abbr str : string) : string :=
  getUnmatchedPart_loop (String.length abbr) abbr str 0 0.

(** ** Token constructors and field wrapping *)

Definition literal (value : string) : Value := Literal value.

Definition literalValue (value : string) : CSSValue := mkCSSValue [literal value].

Definition field (index : nat) (name : string) : Value := Field index name.

(** [hasField]: a field among the tokens, or in an argument of a function
    call among them. *)
Fixpoint hasField (value : CSSValue) : bool :=
  match value with
  | mkCSSValue vs =>
      (fix tokens (vs : list Value) : bool :=
         match vs with
         | [] => false
         | Field _ _ :: _ => true
         | FunctionCall _ args :: rest =>
             if existsb hasField args then true else tokens rest
         | _ :: rest => tokens rest
         end) vs
  end.

Record WrapState : Type := mkWrapState { state_index : nat }.

(** [state.index++] leaves this state behind. *)
Definition bump (state : WrapState) : WrapState :=
  mkWrapState (S (state_index state)).

(** The state a call without a [state] argument gets. *)
Definition freshWrapState : WrapState := mkWrapState 1.

Definition quoteChar (q : Quote) : string :=
  match q with
  | single => String (ascii_of_nat 39) EmptyString
  | double => String (ascii_of_nat 34) EmptyString
  end.

Section Wrap.

(** Conversion of a number to text inside a template literal. *)
Variable numberToString : Q -> string.

(** [wrapWithField]: the mutable [state] is threaded through; [tokens] is
    the loop over [node.value] with the array [value] built so far, and
    [arguments] is the inner loop over the arguments of a function call. *)
Fixpoint wrapWithField (node : CSSValue) (state : WrapState) {struct node}
    : CSSValue * WrapState :=
  match node with
  | mkCSSValue vs =>
      let fix tokens (vs : list Value) (value : list Value)
            (state : WrapState) {struct vs} : list Value * WrapState :=
        match vs with
        | [] => (value, state)
        | v :: rest =>
            match v with
            | ColorValue _ _ _ _ raw =>
                tokens rest (value ++ [field (state_index state) raw])
                  (bump state)
            | Literal s =>
                tokens rest (value ++ [field (state_index state) s])
                  (bump state)
            | NumberValue n u =>
                tokens rest
                  (value ++ [field (state_index state)
                             (numberToString n ++ unitText u)%string])
                  (bump state)
            | StringValue s quote =>
                let q := quoteChar quote in
                tokens rest (value ++ [field (state_index state) (q ++ s ++ q)%string])
                  (bump state)
            | FunctionCall name args =>
                let il := length args in
                let fix arguments (args : list CSSValue) (i : nat)
                      (value : list Value) (state : WrapState) {struct args}
                      : list Value * WrapState :=
                  match args with
                  | [] => (value, state)
                  | arg :: args' =>
                      let (wrapped, state') := wrapWithField arg state in
                      let value' := value ++ css_value wrapped in
                      arguments args' (S i)
                        (if negb (Nat.eqb i (il - 1))
                         then value' ++ [literal ", "] else value')
                        state'
                  end in
                let (value', state') :=
                  arguments args 0
                    (value ++ [field (state_index state) name; literal "("])
                    (bump state) in
                tokens rest (value' ++ [literal ")"]) state'
            | Field _ _ => tokens rest (value ++ [v]) state
            end
        end in
      let (value, state') := tokens vs [] state in
      (mkCSSValue value, state')
  end.

End Wrap.

(** ** Numeric unit inference *)

(** [num | 0]: truncation towards zero, then reduction to a signed 32-bit
    integer. *)
Definition toInt32 (num : Q) : Z :=
  let t := Z.quot (Qnum num) (Zpos (Qden num)) in
  let m := Z.modulo t (2 ^ 32) in
  if Z.leb (2 ^ 31) m then (m - 2 ^ 32)%Z else m.

(** [aliases[key]] for the plain object with the own entries [aliases]:
    the own entry under the key, else the member inherited under it, else
    [undefined]. *)
Definition getProperty (aliases : gmap string string) (key : string)
    : option Unit :=
  match aliases !! key with
  | Some a => Some (Text a)
  | None => option_map Inherited (inherited key)
  end.

(** [aliases[unit] || unit]; the unit is converted to the key. *)
Definition aliasOr (aliases : gmap string string) (unit : Unit) : Unit :=
  match getProperty aliases (unitText unit) with
  | Some a => if truthyUnit a then a else unit
  | None => unit
  end.

(** [unitless.includes(node.name!)]; an absent name is in no list of
    strings. *)
Definition includes (unitless : list string) (name : option string) : bool :=
  match name with
  | Some n => existsb (String.eqb n) unitless
  | None => false
  end.

(** The body of the inner loop of [resolveNumericValue] for one token. *)
Definition resolveNumericToken (config : Config) (name : option string)
    (t : Value) : Value :=
  match t with
  | NumberValue value unit =>
      if truthyUnit unit
      then NumberValue value (aliasOr (unitAliases config) unit)
      else if negb (Qeq_bool value 0%Q) && negb (includes (unitless config) name)
      then NumberValue value
             (if Qeq_bool value (inject_Z (toInt32 value))
              then intUnit config else floatUnit config)
      else t
  | _ => t
  end.

Definition resolveNumericValue (node : CSSProperty) (config : Config)
    : CSSProperty :=
  set_value
    (map (fun v => mkCSSValue
                     (map (resolveNumericToken config (node_name node))
                        (css_value v)))
       (node_value node))
    node.

(** ** Node resolver *)

(** [getSingleKeyword]: the text of the literal when the node's value is one
    value made of one literal token. *)
Definition getSingleKeyword (node : CSSProperty) : option string :=
  match node_value node with
  | [mkCSSValue [Literal kw]] => Some kw
  | _ => None
  end.

Definition setNodeAsText (node : CSSProperty) (text : string) : CSSProperty :=
  set_value [literalValue text] (set_name None node).

Definition resolveAsSnippet (node : CSSProperty) (snippet : CSSSnippetRaw)
    : CSSProperty :=
  setNodeAsText node (raw_value snippet).

Section Resolver.

Variable calculateScore : option string -> option string -> Q.

(** [getKeywords] of [./snippets]: the keyword references of a property
    snippet. *)
Variable getKeywords : CSSSnippetProperty -> list CSSKeywordRef.

Variable numberToString : Q -> string.

(** [resolveSnippetKeyword] returns the node and the boolean.  The source
    asserts [snippet.value[ref.index]!]; with an index outside
    [snippet.value] it stores [undefined] in [node.value], and
    [resolveNode], through which every call comes, then raises in the loop
    of [resolveNumericValue]: the model raises at the assignment. *)
Definition resolveSnippetKeyword (node : CSSProperty) (kw : string)
    (snippet : CSSSnippetProperty) (minScore : option Q)
    : Result (CSSProperty * bool) :=
  let keywords := getKeywords snippet in
  match findBestMatch calculateScore (Some kw) keywords minScore with
  | Some ref =>
      match nth_error (prop_value snippet) (ref_index ref) with
      | Some v => Ok (set_value v node, true)
      | None => Throw
      end
  | None => Ok (node, false)
  end.

(** [if (ref)] on a string: an empty keyword counts as no match. *)
Definition resolveGlobalKeyword (node : CSSProperty) (kw : string)
    (config : Config) (minScore : option Q) : CSSProperty * bool :=
  match findBestMatch calculateScore (Some kw) (keywords config) minScore with
  | Some ref =>
      if truthy ref then (set_value [literalValue ref] node, true)
      else (node, false)
  | None => (node, false)
  end.

(** [resolveAsProperty].  With no value in the node, [getUnmatchedPart]
    reads [abbr.length], which raises when the node had no name. *)
Definition resolveAsProperty (node : CSSProperty)
    (snippet : CSSSnippetProperty) (config : Config) : Result CSSProperty :=
  let abbr := node_name node in
  let node := set_name (Some (property snippet)) node in
  match node_value node with
  | [] =>
      match abbr with
      | None => Throw
      | Some abbr =>
          try r <- resolveSnippetKeyword node
                     (getUnmatchedPart abbr (prop_key snippet)) snippet None in
          if snd r then Ok (fst r)
          else
            match prop_value snippet with
            | [] => Ok (fst r)
            | defaultValue :: _ =>
                Ok (set_value
                      (if existsb hasField defaultValue
                       then defaultValue
                       else map (fun n => fst (wrapWithField numberToString
                                                 n freshWrapState))
                              defaultValue)
                      (fst r))
            end
      end
  | _ :: _ =>
      match getSingleKeyword node with
      | Some kw =>
          try r <- resolveSnippetKeyword node kw snippet None in
          if snd r then Ok (fst r)
          else Ok (fst (resolveGlobalKeyword (fst r) kw config None))
      | None => Ok node
      end
  end.

Definition resolveAsPropertyValue (node : CSSProperty) (config : Config)
    (snippet : option CSSSnippetProperty) : Result CSSProperty :=
  match getSingleKeyword node with
  | Some kw =>
      let score := Some (fuzzySearchMinScore config) in
      match snippet with
      | Some sn =>
          try r <- resolveSnippetKeyword node kw sn score in
          if snd r then Ok (fst r)
          else Ok (fst (resolveGlobalKeyword (fst r) kw config score))
      | None => Ok (fst (resolveGlobalKeyword node kw config score))
      end
  | None => Ok node
  end.

(** [snippets.find(s => s.type === Property && s.property === context)]. *)
Fixpoint findProperty (ctx : string) (snippets : list CSSSnippet)
    : option CSSSnippetProperty :=
  match snippets with
  | [] => None
  | Property p :: rest =>
      if String.eqb (property p) ctx then Some p else findProperty ctx rest
  | Raw _ :: rest => findProperty ctx rest
  end.

(** [if (config.context)]: present and non-empty. *)
Definition contextOf (config : Config) : option string :=
  match context config with
  | Some ctx => if truthy ctx then Some ctx else None
  | None => None
  end.

Definition resolveNode (node : CSSProperty) (snippets : list CSSSnippet)
    (config : Config) : Result CSSProperty :=
  try node' <-
    match contextOf config with
    | Some ctx =>
        resolveAsPropertyValue node config (findProperty ctx snippets)
    | None =>
        match findBestMatch calculateScore (node_name node) snippets
                (Some (fuzzySearchMinScore config)) with
        | Some (Property p) => resolveAsProperty node p config
        | Some (Raw r) => Ok (resolveAsSnippet node r)
        | None => Ok node
        end
    end in
  Ok (resolveNumericValue node' config).

End Resolver.

End Stylesheet.

(** * Generic tree walker *)

Module Walk.

#[local] Set Implicit Arguments.

Section Walker.

(** What an [AbbreviationNode] carries besides its children (name,
    attributes, value, ...), the output stream and the output profile are
    opaque to the walker.  [Extra] stands for the members a state type
    [S extends WalkState] adds. *)
Variables Payload OutputStream OutputProfile Extra : Type.

Inductive AbbreviationNode : Type :=
| mkNode (payload : Payload) (children : list AbbreviationNode).

Definition node_children (n : AbbreviationNode) : list AbbreviationNode :=
  match n with mkNode _ children => children end.

Record Abbreviation : Type := mkAbbreviation {
  abbr_children : list AbbreviationNode
}.

Record WalkState : Type := mkWalkState {
  current : AbbreviationNode;
  parent : option AbbreviationNode;
  ancestors : list AbbreviationNode;
  out : OutputStream;
  profile : OutputProfile;
  field : Z;
  extra : Extra
}.

Definition set_current_parent (c : AbbreviationNode)
    (p : option AbbreviationNode) (s : WalkState) : WalkState :=
  {| current := c; parent := p; ancestors := ancestors s;
     out := out s; profile := profile s; field := field s;
     extra := extra s |}.

Definition set_ancestors (a : list AbbreviationNode) (s : WalkState)
    : WalkState :=
  {| current := current s; parent := parent s; ancestors := a;
     out := out s; profile := profile s; field := field s;
     extra := extra s |}.

(** [state.ancestors.push(x)] and [state.ancestors.pop()]; popping an empty
    array leaves it empty. *)
Definition push (x : AbbreviationNode) (s : WalkState) : WalkState :=
  set_ancestors (ancestors s ++ [x]) s.

Definition pop (s : WalkState) : WalkState :=
  set_ancestors (removelast (ancestors s)) s.

(** What a visitor does with the arguments [state] and [next], as the
    sequence of its steps: it returns, calls [next(node, index, items)] and
    goes on, changes the state object and goes on, or goes on depending on
    what the state object holds. *)
Inductive Program : Type :=
| Return
| Next (node : AbbreviationNode) (index : nat)
    (items : list AbbreviationNode) (k : Program)
| Update (f : WalkState -> WalkState) (k : Program)
| Read (k : WalkState -> Program).

Definition Visitor : Type :=
  AbbreviationNode -> nat -> list AbbreviationNode -> Program.

(** The record of a run: for every step of the visitor's own code, the
    node the visitor was called with and the state object at that step. *)
Definition Log : Type := list (AbbreviationNode * WalkState).

Definition WalkNext : Type :=
  AbbreviationNode -> nat -> list AbbreviationNode -> WalkState ->
  option (WalkState * Log).

(** The call [visitor(ctx, index, items, state, next)], run on the steps of
    the visitor. *)
Fixpoint runVisitor (next : WalkNext) (ctx : AbbreviationNode)
    (p : Program) (state : WalkState) : option (WalkState * Log) :=
  match p with
  | Return => Some (state, [(ctx, state)])
  | Next node index items k =>
      match next node index items state with
      | Some (state1, log1) =>
          match runVisitor next ctx k state1 with
          | Some (state2, log2) =>
              Some (state2, (ctx, state) :: log1 ++ log2)
          | None => None
          end
      | None => None
      end
  | Update f k =>
      match runVisitor next ctx k (f state) with
      | Some (state2, log2) => Some (state2, (ctx, state) :: log2)
      | None => None
      end
  | Read k => runVisitor next ctx (k state) state
  end.

(** [next], given the [callback] it calls. *)
Definition nextWith (callback : WalkNext) : WalkNext :=
  fun node index items state =>
    match callback node index items (push (current state) state) with
    | Some (state', log) => Some (pop state', log)
    | None => None
    end.

Section WithVisitor.

Variable visitor : Visitor.

(** [callback]; [depth] bounds the nesting of visitor calls, and [None]
    is a run that needs deeper nesting. *)
Fixpoint callback (depth : nat) (ctx : AbbreviationNode) (index : nat)
    (items : list AbbreviationNode) (state : WalkState)
    : option (WalkState * Log) :=
  match depth with
  | O => None
  | S depth' =>
      let parent := parent state in
      let current := current state in
      let state1 := set_current_parent ctx (Some current) state in
      match runVisitor (nextWith (callback depth')) ctx
              (visitor ctx index items) state1 with
      | Some (state2, log) =>
          Some (set_current_parent current parent state2, log)
      | None => None
      end
  end.

Definition next (depth : nat) : WalkNext := nextWith (callback depth).

(** [items.forEach(callback)] from position [index] on; [rest] is what
    is left of [items]. *)
Fixpoint forEach (depth : nat) (items rest : list AbbreviationNode)
    (index : nat) (state : WalkState) : option (WalkState * Log) :=
  match rest with
  | [] => Some (state, [])
  | ctx :: rest' =>
      match callback depth ctx index items state with
      | Some (state1, log1) =>
          match forEach depth items rest' (S index) state1 with
          | Some (state2, log2) => Some (state2, log1 ++ log2)
          | None => None
          end
      | None => None
      end
  end.

Definition walk (depth : nat) (abbr : Abbreviation) (state : WalkState)
    : option (WalkState * Log) :=
  forEach depth (abbr_children abbr) (abbr_children abbr) 0 state.

End WithVisitor.

(** Nesting depth of a node and of a forest of nodes. *)
Fixpoint height (n : AbbreviationNode) : nat :=
  match n with
  | mkNode _ children =>
      S ((fix heights (l : list AbbreviationNode) : nat :=
            match l with
            | [] => O
            | c :: l' => Nat.max (height c) (heights l')
            end) children)
  end.

Definition forestHeight (l : list AbbreviationNode) : nat :=
  fold_right (fun c h => Nat.max (height c) h) O l.

(** A property of every [next] call and every state change a program can
    make. *)
Inductive Each (onNext : AbbreviationNode -> Prop)
    (onUpdate : (WalkState -> WalkState) -> Prop) : Program -> Prop :=
| Each_Return : Each onNext onUpdate Return
| Each_Next node index items k :
    onNext node -> Each onNext onUpdate k ->
    Each onNext onUpdate (Next node index items k)
| Each_Update f k :
    onUpdate f -> Each onNext onUpdate k ->
    Each onNext onUpdate (Update f k)
| Each_Read k :
    (forall s, Each onNext onUpdate (k s)) ->
    Each onNext onUpdate (Read k).

(** A state change that leaves the walker's three members alone. *)
Definition keepsPosition (f : WalkState -> WalkState) : Prop :=
  forall s, current (f s) = current s /\ parent (f s) = parent s /\
            ancestors (f s) = ancestors s.

Definition keepsAncestors (f : WalkState -> WalkState) : Prop :=
  forall s, ancestors (f s) = ancestors s.

(** A visitor that passes to [next] only children of the node it was
    called with and leaves [current], [parent] and [ancestors] to the
    walker. *)
Definition descends (visitor : Visitor) : Prop :=
  forall ctx index items,
    Each (fun node => In node (node_children ctx)) keepsPosition
      (visitor ctx index items).


(** What the walker does not own in the state object. *)
Definition userPart (s : WalkState)
    : OutputStream * OutputProfile * Z * Extra :=
  (out s, profile s, field s, extra s).

(** Two state objects that agree on what the walker owns. *)
Definition samePosition (s s' : WalkState) : Prop :=
  current s = current s' /\ parent s = parent s' /\
  ancestors s = ancestors s'.

(** A program whose [next] calls and whose effect on the walker's members
    do not depend on the other members of the state object. *)
Inductive Blind : Program -> Prop :=
| Blind_Return : Blind Return
| Blind_Next node index items k :
    Blind k -> Blind (Next node index items k)
| Blind_Update f k :
    (forall s s', samePosition s s' -> samePosition (f s) (f s')) ->
    Blind k -> Blind (Update f k)
| Blind_Read k :
    (forall s s', samePosition s s' -> k s = k s') ->
    (forall s, Blind (k s)) ->
    Blind (Read k).

(** Two records of runs that name the same nodes with state objects that
    agree on what the walker owns. *)
Definition sameLog (log log' : Log) : Prop :=
  Forall2 (fun e e' => fst e = fst e' /\ samePosition (snd e) (snd e'))
    log log'.

(** Runs from two state objects that agree on what the walker owns: when
    the first returns, so does the second, alike. *)
Definition agree (run run' : option (WalkState * Log)) : Prop :=
  match run with
  | Some (s1, log) =>
      exists s1' log',
        run' = Some (s1', log') /\ samePosition s1 s1' /\ sameLog log log'
  | None => True
  end.


End Walker.

End Walk.

(** * Vocabulary of the statements and data of the worked examples *)

Module Samples.

Import Stylesheet.
Local Open Scope string_scope.
Local Open Scope list_scope.

(** A scorer for the worked examples: 1 for equal strings, the covered
    fraction of the candidate when the abbreviation is a non-empty proper
    prefix of it, 0 otherwise. *)
Definition prefixScore (abbr str : option string) : Q :=
  match abbr, str with
  | Some a, Some s =>
      if String.eqb a s then 1%Q
      else if truthy a && String.prefix a s
      then Z.of_nat (String.length a) # Pos.of_nat (String.length s)
      else 0%Q
  | _, _ => 0%Q
  end.

End Samples.

Section Tracking.

Import Stylesheet.

Variable calculateScore : option string -> option string -> Q.
Context {T : Type} `{Matchable T}.

(** The two locals of [findBestMatch] after a loop that met no perfect
    score. *)
Fixpoint track (abbr : option string) (items : list T)
    (acc : option T * Q) : option T * Q :=
  match items with
  | [] => acc
  | item :: rest =>
      let score := scoreOf calculateScore abbr item in
      if negb (Qeq_bool score 0%Q) && Qle_bool (snd acc) score
      then track abbr rest (Some item, score)
      else track abbr rest acc
  end.

End Tracking.

Section Remainder.

Import Stylesheet.

(** The remainder in the words of the specification: a cursor advances
    through the candidate, greedily, for each character of the pattern;
    at the first character that cannot be found from the cursor on, what
    is left of the pattern is returned. *)
Fixpoint remainderFrom (pattern candidate : string) (cursor : nat) : string :=
  match pattern with
  | EmptyString => EmptyString
  | String ch pattern' =>
      match indexOf candidate ch cursor with
      | None => pattern
      | Some pos => remainderFrom pattern' candidate (S pos)
      end
  end.

(** [skip n s]: [s] without its first [n] characters. *)
Fixpoint skip (n : nat) (s : string) : string :=
  match n, s with
  | O, _ => s
  | S _, EmptyString => EmptyString
  | S k, String _ s' => skip k s'
  end.

Fixpoint occurs (ch : ascii) (s : string) : Prop :=
  match s with
  | EmptyString => False
  | String c s' => c = ch \/ occurs ch s'
  end.

(** [Subseq p s]: the characters of [p] appear in [s] in the same order. *)
Inductive Subseq : string -> string -> Prop :=
| Subseq_nil s : Subseq EmptyString s
| Subseq_skip p c s : Subseq p s -> Subseq p (String c s)
| Subseq_take p c s : Subseq p s -> Subseq (String c p) (String c s).

End Remainder.

Section NumericVocabulary.

Import Stylesheet.

(** A whole number. *)
Definition isWhole (value : Q) : Prop := exists z : Z, (value == inject_Z z)%Q.

(** Within the range of a signed 32-bit integer. *)
Definition inInt32 (value : Q) : Prop :=
  (inject_Z (- 2 ^ 31) <= value)%Q /\ (value < inject_Z (2 ^ 31))%Q.

(** Two tokens that differ at most in the unit of a number. *)
Definition sameUpToUnit (t t' : Value) : Prop :=
  t' = t \/
  exists value unit unit',
    t = NumberValue value unit /\ t' = NumberValue value unit'.

(** Two nodes with the same name and the same values, token for token, up
    to the units of their numbers. *)
Definition sameStructure (node node' : CSSProperty) : Prop :=
  node_name node' = node_name node /\
  node_important node' = node_important node /\
  Forall2 (fun v v' => Forall2 sameUpToUnit (css_value v) (css_value v'))
    (node_value node) (node_value node').


End NumericVocabulary.

Module SampleData.

Import Stylesheet.
Local Open Scope string_scope.
Local Open Scope list_scope.

(** A configuration in the style of the defaults of the editor plugin. *)
Definition sampleConfig : Config :=
  {| context := None;
     fuzzySearchMinScore := 3 # 10;
     unitAliases :=
       <["e" := "em"]> (<["p" := "%"]> (<["x" := "ex"]> (<["r" := "rem"]> ∅)));
     unitless := ["z-index"; "line-height"; "opacity"; "font-weight"; "zoom"];
     intUnit := "px";
     floatUnit := "em";
     keywords := ["auto"; "inherit"; "unset"; "none"] |}.


(** The same with an alias that yields the name of an inherited member:
    [c] stands for [constructor]. *)
Definition inheritedConfig : Config :=
  {| context := None;
     fuzzySearchMinScore := 3 # 10;
     unitAliases := <["c" := "constructor"]> ∅;
     unitless := [];
     intUnit := "px";
     floatUnit := "em";
     keywords := [] |}.

Definition numberNode (name : string) (value : Q) (unit : string) : CSSProperty :=
  {| node_name := Some name;
     node_value := [mkCSSValue [NumberValue value unit]];
     node_important := false |}.

End SampleData.

Module SampleSnippets.

Import Stylesheet.
Local Open Scope string_scope.
Local Open Scope list_scope.

(** The property snippet [pos] of the property [position] with three
    alternative values. *)
Definition posSnippet : CSSSnippetProperty :=
  {| prop_key := "pos";
     property := "position";
     prop_value := [ [mkCSSValue [Literal "static"]];
                     [mkCSSValue [Literal "relative"]];
                     [mkCSSValue [Literal "absolute"]] ] |}.

(** Keyword references for the worked examples: one per alternative whose
    first token is a literal, under the text of that literal. *)
Fixpoint literalKeywords (alternatives : list (list CSSValue)) (i : nat)
    : list CSSKeywordRef :=
  match alternatives with
  | [] => []
  | (mkCSSValue (Literal kw :: _) :: _) :: rest =>
      mkKeywordRef kw i :: literalKeywords rest (S i)
  | _ :: rest => literalKeywords rest (S i)
  end.

Definition sampleKeywords (snippet : CSSSnippetProperty) : list CSSKeywordRef :=
  literalKeywords (prop_value snippet) 0.

(** A text for numbers in the worked examples: the integer part. *)
Definition sampleNumberToString (value : Q) : string :=
  NilEmpty.string_of_int (Z.to_int (Z.quot (Qnum value) (Zpos (Qden value)))).

(** A property snippet whose default value is [scale(x, 2) none]. *)
Definition transformSnippet : CSSSnippetProperty :=
  {| prop_key := "trf";
     property := "transform";
     prop_value :=
       [ [mkCSSValue [FunctionCall "scale"
                        [mkCSSValue [Literal "x"];
                         mkCSSValue [NumberValue 2 EmptyString]];
                      Literal "none"]] ] |}.

(** A property snippet whose default value is the list [a, b]. *)
Definition listSnippet : CSSSnippetProperty :=
  {| prop_key := "ls";
     property := "list";
     prop_value := [ [mkCSSValue [Literal "a"]; mkCSSValue [Literal "b"]] ] |}.

Definition literalNode (name : option string) (kw : string) : CSSProperty :=
  {| node_name := name;
     node_value := [mkCSSValue [Literal kw]];
     node_important := false |}.

Definition emptyNode (name : string) : CSSProperty :=
  {| node_name := Some name; node_value := []; node_important := false |}.

End SampleSnippets.

Section FieldVocabulary.

Import Stylesheet.
Local Open Scope list_scope.

Variable numberToString : Q -> string.

(** The placeholder texts of a value tree, left to right and depth first:
    one per token, a function call giving its name and then the texts of
    its arguments.  Tokens that are already fields give none. *)
Fixpoint labels (node : CSSValue) : list string :=
  match node with
  | mkCSSValue vs => flat_map labelsOfToken vs
  end
with labelsOfToken (v : Value) : list string :=
  match v with
  | Literal s => [s]
  | NumberValue n u => [(numberToString n ++ unitText u)%string]
  | ColorValue _ _ _ _ raw => [raw]
  | StringValue s quote => [(quoteChar quote ++ s ++ quoteChar quote)%string]
  | FunctionCall name args => name :: flat_map labels args
  | Field _ _ => []
  end.

(** The fields among a list of tokens, in order, as index and text. *)
Fixpoint fieldsOf (value : list Value) : list (nat * string) :=
  match value with
  | [] => []
  | Field index name :: rest => (index, name) :: fieldsOf rest
  | _ :: rest => fieldsOf rest
  end.

(** The number of tokens of a value tree, those in the arguments of
    function calls included. *)
Definition countTokens (node : CSSValue) : nat := length (labels node).

(** [numbered start texts]: the texts paired with [start], [start + 1],
    ... in order. *)
Definition numbered (start : nat) (texts : list string) : list (nat * string) :=
  combine (seq start (length texts)) texts.

(** A value tree without fields is numbered from the index of the state
    on, in the order of its texts, and leaves the state advanced by their
    number. *)
Definition numbersFrom (node : CSSValue) : Prop :=
  hasField node = false ->
  forall state,
    fieldsOf (css_value (fst (wrapWithField numberToString node state)))
    = numbered (state_index state) (labels node) /\
    state_index (snd (wrapWithField numberToString node state))
    = state_index state + length (labels node).

(** The two loops of [wrapWithField] as functions of their own. *)
Section Arguments.

(** [il], the number of arguments of the call. *)
Variable il : nat.

Fixpoint wrapArguments (args : list CSSValue) (i : nat)
    (value : list Value) (state : WrapState) : list Value * WrapState :=
  match args with
  | [] => (value, state)
  | arg :: args' =>
      let (wrapped, state') := wrapWithField numberToString arg state in
      let value' := value ++ css_value wrapped in
      wrapArguments args' (S i)
        (if negb (Nat.eqb i (il - 1))
         then value' ++ [literal ", "] else value')
        state'
  end.

End Arguments.

Fixpoint wrapTokens (vs : list Value) (value : list Value)
    (state : WrapState) : list Value * WrapState :=
  match vs with
  | [] => (value, state)
  | v :: rest =>
      match v with
      | ColorValue _ _ _ _ raw =>
          wrapTokens rest (value ++ [field (state_index state) raw])
            (bump state)
      | Literal s =>
          wrapTokens rest (value ++ [field (state_index state) s])
            (bump state)
      | NumberValue n u =>
          wrapTokens rest
            (value ++ [field (state_index state)
                       (numberToString n ++ unitText u)%string])
            (bump state)
      | StringValue s quote =>
          let q := quoteChar quote in
          wrapTokens rest
            (value ++ [field (state_index state) (q ++ s ++ q)%string])
            (bump state)
      | FunctionCall name args =>
          let (value', state') :=
            wrapArguments (length args) args 0
              (value ++ [field (state_index state) name; literal "("])
              (bump state) in
          wrapTokens rest (value' ++ [literal ")"]) state'
      | Field _ _ => wrapTokens rest (value ++ [v]) state
      end
  end.

(** Induction on value trees through the arguments of function calls. *)
Section NestedInduction.

Variable P : CSSValue -> Prop.

Definition argumentsHave (v : Value) : Prop :=
  match v with
  | FunctionCall _ args => Forall P args
  | _ => True
  end.

Hypothesis step :
  forall vs, Forall argumentsHave vs -> P (mkCSSValue vs).

Fixpoint CSSValue_nested_ind (node : CSSValue) : P node :=
  match node with
  | mkCSSValue vs =>
      step vs
        ((fix tokens (vs : list Value) : Forall argumentsHave vs :=
            match vs with
            | [] => @List.Forall_nil Value argumentsHave
            | v :: rest =>
                @List.Forall_cons Value argumentsHave v rest
                  (match v return argumentsHave v with
                   | FunctionCall name args =>
                       (fix arguments (args : list CSSValue)
                          : Forall P args :=
                          match args with
                          | [] => @List.Forall_nil CSSValue P
                          | arg :: args' =>
                              @List.Forall_cons CSSValue P arg args'
                                (CSSValue_nested_ind arg)
                                (arguments args')
                          end) args
                   | _ => I
                   end)
                  (tokens rest)
            end) vs)
  end.

End NestedInduction.

End FieldVocabulary.

Module SampleWalk.

Import Walk.
Local Open Scope string_scope.
Local Open Scope list_scope.

(** Nodes that carry a name; the output stream is the list of the names
    written so far. *)
Definition SNode : Type := AbbreviationNode string.
Definition SState : Type := WalkState string (list string) unit unit.
Definition SProgram : Type := Program string (list string) unit unit.

Definition node_payload (n : SNode) : string :=
  match n with mkNode payload _ => payload end.

(** [ul > (li > a) + li], under a [nav] beside it. *)
Definition anchor : SNode := mkNode "a" [].
Definition item1 : SNode := mkNode "li" [anchor].
Definition item2 : SNode := mkNode "li" [].
Definition list1 : SNode := mkNode "ul" [item1; item2].
Definition nav : SNode := mkNode "nav" [].
Definition sampleAbbreviation : Abbreviation string :=
  mkAbbreviation [list1; nav].

Definition placeholder : SNode := mkNode EmptyString [].

Definition sampleState : SState :=
  {| current := placeholder; parent := None; ancestors := [];
     out := []; profile := tt; field := 1%Z; extra := tt |}.

(** [children.forEach(next)] as the steps of a visitor. *)
Fixpoint nextEach (items rest : list SNode) (index : nat) : SProgram :=
  match rest with
  | [] => Return _ _ _ _
  | c :: rest' => Next c index items (nextEach items rest' (S index))
  end.

Definition writeName (name : string) (s : SState) : SState :=
  {| current := current s; parent := parent s; ancestors := ancestors s;
     out := out s ++ [name]; profile := profile s;
     field := (field s + 1)%Z; extra := extra s |}.

(** A visitor that writes the name of the node, advances the field counter
    and descends into every child. *)
Definition sampleVisitor : Visitor string (list string) unit unit :=
  fun ctx index items =>
    Update (writeName (node_payload ctx))
      (nextEach (node_children ctx) (node_children ctx) 0).

End SampleWalk.

Module SampleWalkView.

Import Walk SampleWalk.
Local Open Scope list_scope.

(** An entry of the record of a run, by names: the node the visitor was
    called with, then [ancestors], [current] and [parent] of the state. *)
Definition viewEntry (entry : SNode * SState)
    : string * list string * string * option string :=
  (node_payload (fst entry),
   map node_payload (ancestors (snd entry)),
   node_payload (current (snd entry)),
   option_map node_payload (parent (snd entry))).

(** The field counter never falls below 1. *)
Definition fieldPositive (user : list string * unit * Z * unit) : Prop :=
  (1 <= snd (fst user))%Z.

End SampleWalkView.

(** * Further vocabulary *)

Section TokenVocabulary.

Import Stylesheet.

(** A token that is a field or a literal. *)
Definition isFieldOrLiteral (t : Value) : bool :=
  match t with
  | Field _ _ | Literal _ => true
  | _ => false
  end.

(** A token that is not a number without a unit. *)
Definition hasUnitIfNumber (t : Value) : bool :=
  match t with
  | NumberValue _ unit => truthyUnit unit
  | _ => true
  end.

(** A token that is a number other than zero and without a unit. *)
Definition isBareNumber (t : Value) : bool :=
  match t with
  | NumberValue value unit =>
      negb (truthyUnit unit) && negb (Qeq_bool value 0%Q)
  | _ => false
  end.

(** A token that is a number with a unit. *)
Definition isNumberWithUnit (t : Value) : bool :=
  match t with
  | NumberValue _ unit => truthyUnit unit
  | _ => false
  end.

(** The tokens of all the values of a node, those inside the arguments of
    function calls apart. *)
Definition topTokens (node : CSSProperty) : list Value :=
  flat_map css_value (node_value node).

(** The leaf tokens of a value tree: its tokens other than function
    calls, those in the arguments of function calls included. *)
Fixpoint leafTokens (node : CSSValue) : nat :=
  match node with
  | mkCSSValue vs => list_sum (map leafTokensOf vs)
  end
with leafTokensOf (v : Value) : nat :=
  match v with
  | FunctionCall _ args => list_sum (map leafTokens args)
  | _ => 1
  end.

(** The function calls of a value tree, at any depth. *)
Fixpoint functionCalls (node : CSSValue) : nat :=
  match node with
  | mkCSSValue vs => list_sum (map functionCallsOf vs)
  end
with functionCallsOf (v : Value) : nat :=
  match v with
  | FunctionCall _ args => S (list_sum (map functionCalls args))
  | _ => 0
  end.

(** The indices of the fields of the values of a node, in order. *)
Definition fieldIndices (values : list CSSValue) : list nat :=
  flat_map (fun v => map fst (fieldsOf (css_value v))) values.

(** Every keyword reference points into the values of its snippet. *)
Definition refsInRange
    (getKeywords : CSSSnippetProperty -> list CSSKeywordRef) : Prop :=
  forall sn ref, In ref (getKeywords sn) ->
                 ref_index ref < length (prop_value sn).

End TokenVocabulary.

Module MoreSamples.

Import Stylesheet.
Local Open Scope string_scope.
Local Open Scope list_scope.

(** A scorer for the worked examples that gives every pair one half,
    an absent abbreviation included. *)
Definition halfScore (abbr str : option string) : Q := 1 # 2.

(** A node without name and without value. *)
Definition bareNode : CSSProperty :=
  {| node_name := None; node_value := []; node_important := false |}.

(** The raw snippet [imp] for the text [!important]. *)
Definition importantSnippet : CSSSnippetRaw :=
  {| raw_key := "imp"; raw_value := "!important" |}.

(** The property snippet [z] of the unitless property [z-index]. *)
Definition zIndexSnippet : CSSSnippetProperty :=
  {| prop_key := "z"; property := "z-index"; prop_value := [] |}.

(** The same configuration in the context of the property [position]. *)
Definition contextConfig : Config :=
  {| context := Some "position";
     fuzzySearchMinScore := 3 # 10;
     unitAliases := ∅;
     unitless := ["z-index"];
     intUnit := "px";
     floatUnit := "em";
     keywords := ["auto"; "inherit"; "unset"; "none"] |}.

End MoreSamples.

Module WalkClients.

#[local] Set Implicit Arguments.

Import Walk.
Local Open Scope list_scope.

Section Recording.

(** A visitor that writes down each call it receives, as node, index and
    list of siblings, and then calls [next] for every child of the node in
    turn: [node.children.forEach(next)].  The output stream is the list of
    the calls written so far. *)
Variables Payload OutputProfile Extra : Type.

Definition Visit : Type :=
  AbbreviationNode Payload * nat * list (AbbreviationNode Payload).

Definition record (ctx : AbbreviationNode Payload) (index : nat)
    (items : list (AbbreviationNode Payload))
    (s : WalkState Payload (list Visit) OutputProfile Extra)
    : WalkState Payload (list Visit) OutputProfile Extra :=
  {| current := current s; parent := parent s; ancestors := ancestors s;
     out := out s ++ [(ctx, index, items)]; profile := profile s;
     field := field s; extra := extra s |}.

Fixpoint nextAll (items rest : list (AbbreviationNode Payload)) (index : nat)
    : Program Payload (list Visit) OutputProfile Extra :=
  match rest with
  | [] => Return _ _ _ _
  | c :: rest' => Next c index items (nextAll items rest' (S index))
  end.

Definition recordingVisitor
    : Visitor Payload (list Visit) OutputProfile Extra :=
  fun ctx index items =>
    Update (record ctx index items)
      (nextAll (node_children ctx) (node_children ctx) 0).

Section Siblings.

(** The calls for the nodes [rest] of the sibling list [items], from the
    position [index] on, each followed by the calls [below] it. *)
Variable below : AbbreviationNode Payload -> list Visit.
Variable items : list (AbbreviationNode Payload).

Fixpoint visitsEach (rest : list (AbbreviationNode Payload)) (index : nat)
    : list Visit :=
  match rest with
  | [] => []
  | c :: rest' => (c, index, items) :: below c ++ visitsEach rest' (S index)
  end.

End Siblings.

(** The calls below a node, in pre-order: each child with its position
    among the children, followed by the calls below it. *)
Fixpoint visitsBelow (n : AbbreviationNode Payload) : list Visit :=
  match n with
  | mkNode _ children => visitsEach visitsBelow children children 0
  end.

Definition visitsOfForest (roots : list (AbbreviationNode Payload))
    : list Visit :=
  visitsEach visitsBelow roots roots 0.

End Recording.

End WalkClients.

Module MoreSampleWalk.

Import Walk SampleWalk WalkClients.
Local Open Scope string_scope.
Local Open Scope list_scope.

Definition recordingState
    : WalkState string (list (Visit string)) unit unit :=
  {| current := placeholder; parent := None; ancestors := [];
     out := []; profile := tt; field := 1%Z; extra := tt |}.


(** A visitor that writes the name of the node and returns without calling
    [next]. *)
Definition shallowVisitor : Visitor string (list string) unit unit :=
  fun ctx index items =>
    Update (writeName (node_payload ctx)) (Return _ _ _ _).

End MoreSampleWalk.

(** * Properties of the best-match resolver *)


Section BestMatchFacts.

Import Stylesheet.

Variable calculateScore : option string -> option string -> Q.
Context {T : Type} `{Matchable T}.
Variable abbr : option string.

Local Abbreviation sc := (scoreOf calculateScore abbr).
Local Abbreviation loop := (findBestMatch_loop calculateScore abbr).

Lemma Qeq_bool_false (x y : Q) : Qeq_bool x y = false <-> ~ (x == y)%Q.
Proof.
  split.
  - intros E F. apply Qeq_bool_iff in F. congruence.
  - intros N. destruct (Qeq_bool x y) eqn:E; [|reflexivity].
    apply Qeq_bool_iff in E. contradiction.
Qed.

Lemma Qle_bool_false (x y : Q) : Qle_bool x y = false <-> (y < x)%Q.
Proof.
  split.
  - intros E. apply Qnot_le_lt. intros F. apply Qle_bool_iff in F. congruence.
  - intros L. destruct (Qle_bool x y) eqn:E; [|reflexivity].
    apply Qle_bool_iff in E. lra.
Qed.

(** The guard of the [if] that records a new best item. *)
Lemma records_iff (score maxScore : Q) :
  negb (Qeq_bool score 0) && Qle_bool maxScore score = true <->
  ~ (score == 0)%Q /\ (maxScore <= score)%Q.
Proof.
  rewrite andb_true_iff, negb_true_iff, Qeq_bool_false, Qle_bool_iff.
  tauto.
Qed.

Lemma records_not (score maxScore : Q) :
  negb (Qeq_bool score 0) && Qle_bool maxScore score = false <->
  (score == 0)%Q \/ (score < maxScore)%Q.
Proof.
  rewrite andb_false_iff, negb_false_iff, Qeq_bool_iff, Qle_bool_false.
  tauto.
Qed.

(** A perfect score ends the loop at once, whatever was recorded. *)
Lemma loop_perfect (l1 : list T) (x : T) (l2 : list T) (minScore : Q) :
  (forall y, In y l1 -> ~ (sc y == 1)%Q) ->
  (sc x == 1)%Q ->
  forall m M, loop (l1 ++ x :: l2) minScore m M = Some x.
Proof.
  induction l1 as [|item l1 IH]; intros Hl1 Hx m M; simpl.
  - apply Qeq_bool_iff in Hx. now rewrite Hx.
  - assert (E : Qeq_bool (sc item) 1 = false).
    { apply Qeq_bool_false, Hl1. now left. }
    rewrite E.
    destruct (negb (Qeq_bool (sc item) 0) && Qle_bool M (sc item));
      apply IH; auto; intros y Hy; apply Hl1; now right.
Qed.

(** Without a perfect score the loop is [track] followed by the final
    test against [minScore]. *)
Lemma loop_track (items : list T) (minScore : Q) :
  (forall y, In y items -> ~ (sc y == 1)%Q) ->
  forall m M,
    loop items minScore m M =
    if Qle_bool minScore (snd (track calculateScore abbr items (m, M)))
    then fst (track calculateScore abbr items (m, M)) else None.
Proof.
  induction items as [|item items IH]; intros Hno m M; simpl.
  - reflexivity.
  - assert (E : Qeq_bool (sc item) 1 = false).
    { apply Qeq_bool_false, Hno. now left. }
    rewrite E.
    destruct (negb (Qeq_bool (sc item) 0) && Qle_bool M (sc item));
      apply IH; intros y Hy; apply Hno; now right.
Qed.

(** What [track] ends with: nothing recorded, or the last item among those
    whose score is not zero and largest. *)
Lemma track_cases (items : list T) :
  forall m M,
    (track calculateScore abbr items (m, M) = (m, M) /\
     forall y, In y items -> (sc y == 0)%Q \/ (sc y < M)%Q)
    \/
    (exists l1 x l2,
        items = l1 ++ x :: l2 /\
        track calculateScore abbr items (m, M) = (Some x, sc x) /\
        ~ (sc x == 0)%Q /\ (M <= sc x)%Q /\
        (forall y, In y l1 -> (sc y == 0)%Q \/ (sc y <= sc x)%Q) /\
        (forall y, In y l2 -> (sc y == 0)%Q \/ (sc y < sc x)%Q)).
Proof.
  induction items as [|item items IH]; intros m M; simpl.
  - left. split; [reflexivity | intros y []].
  - destruct (negb (Qeq_bool (sc item) 0) && Qle_bool M (sc item)) eqn:G.
    + apply records_iff in G. destruct G as [Gz Gm].
      destruct (IH (Some item) (sc item))
        as [[E Hall] | (l1 & x & l2 & -> & E & Hz & Hm & H1 & H2)].
      * right. exists [], item, items. simpl. repeat split; auto.
        intros y [].
      * right. exists (item :: l1), x, l2. simpl.
        repeat split; auto; [lra|].
        intros y [<- | Hy]; [right; lra | auto].
    + apply records_not in G.
      destruct (IH m M)
        as [[E Hall] | (l1 & x & l2 & -> & E & Hz & Hm & H1 & H2)].
      * left. split; [exact E|]. intros y [<- | Hy]; auto.
      * right. exists (item :: l1), x, l2. simpl.
        repeat split; auto.
        intros y [<- | Hy]; [|auto].
        destruct G as [G | G]; [now left | right; lra].
Qed.

(** Items that score below the recorded maximum change nothing. *)
Lemma loop_below (l2 : list T) (minScore : Q) (m : option T) (M : Q) :
  (forall y, In y l2 -> ~ (sc y == 1)%Q) ->
  (forall y, In y l2 -> (sc y < M)%Q) ->
  loop l2 minScore m M = if Qle_bool minScore M then m else None.
Proof.
  induction l2 as [|item l2 IH]; intros Hno Hlt; simpl.
  - reflexivity.
  - assert (E : Qeq_bool (sc item) 1 = false).
    { apply Qeq_bool_false, Hno. now left. }
    assert (G : negb (Qeq_bool (sc item) 0) && Qle_bool M (sc item) = false).
    { apply records_not. right. apply Hlt. now left. }
    rewrite E, G. apply IH; intros y Hy; [apply Hno | apply Hlt]; now right.
Qed.

Lemma loop_last_best (l1 : list T) (x : T) (l2 : list T) (minScore : Q) :
  (forall y, In y (l1 ++ x :: l2) -> ~ (sc y == 1)%Q) ->
  (0 < sc x)%Q ->
  (forall y, In y l1 -> (sc y <= sc x)%Q) ->
  (forall y, In y l2 -> (sc y < sc x)%Q) ->
  forall m M, (M <= sc x)%Q ->
    loop (l1 ++ x :: l2) minScore m M =
    if Qle_bool minScore (sc x) then Some x else None.
Proof.
  induction l1 as [|item l1 IH]; intros Hno Hpos H1 H2 m M HM; simpl.
  - assert (E : Qeq_bool (sc x) 1 = false).
    { apply Qeq_bool_false, Hno. now left. }
    assert (G : negb (Qeq_bool (sc x) 0) && Qle_bool M (sc x) = true).
    { apply records_iff. split; [lra | exact HM]. }
    rewrite E, G. apply loop_below; auto.
    intros y Hy. apply Hno. now right.
  - assert (E : Qeq_bool (sc item) 1 = false).
    { apply Qeq_bool_false, Hno. now left. }
    rewrite E.
    assert (Hno' : forall y, In y (l1 ++ x :: l2) -> ~ (sc y == 1)%Q).
    { intros y Hy. apply Hno. now right. }
    assert (H1' : forall y, In y l1 -> (sc y <= sc x)%Q).
    { intros y Hy. apply H1. now right. }
    destruct (negb (Qeq_bool (sc item) 0) && Qle_bool M (sc item)).
    + apply IH; auto. apply H1. now left.
    + apply IH; auto.
Qed.

Lemma findBestMatch_first_perfect (l1 : list T) (x : T) (l2 : list T)
    (minScore : option Q) :
  (forall y, In y l1 -> ~ (sc y == 1)%Q) ->
  (sc x == 1)%Q ->
  findBestMatch calculateScore abbr (l1 ++ x :: l2) minScore = Some x.
Proof. intros Hl1 Hx. unfold findBestMatch. now apply loop_perfect. Qed.

Lemma findBestMatch_none_iff (items : list T) (minScore : option Q) :
  (forall y, In y items -> ~ (sc y == 1)%Q) ->
  (findBestMatch calculateScore abbr items minScore = None <->
   (forall y, In y items -> (sc y < default 0%Q minScore)%Q) \/
   (forall y, In y items -> ~ (0 < sc y)%Q)).
Proof.
  intros Hno. unfold findBestMatch. rewrite loop_track by exact Hno.
  set (ms := default 0%Q minScore).
  destruct (track_cases items None 0%Q)
    as [[E Hall] | (l1 & x & l2 & Hitems & E & Hz & Hm & H1 & H2)];
    rewrite E; simpl.
  - split.
    + intros _. right. intros y Hy L.
      destruct (Hall y Hy) as [Z | Z]; lra.
    + intros _. now destruct (Qle_bool ms 0).
  - assert (Hx : In x items).
    { rewrite Hitems. apply in_or_app. right. now left. }
    destruct (Qle_bool ms (sc x)) eqn:G.
    + apply Qle_bool_iff in G. split; [discriminate|].
      intros [L | L]; exfalso.
      * specialize (L x Hx). lra.
      * apply (L x Hx). lra.
    + apply Qle_bool_false in G. split; [|reflexivity].
      intros _. left. intros y Hy. rewrite Hitems in Hy.
      apply in_app_or in Hy. destruct Hy as [Hy | [<- | Hy]].
      * destruct (H1 y Hy); lra.
      * exact G.
      * destruct (H2 y Hy); lra.
Qed.

(** With its two locals at [m] and [M], and a minimum score of 0, the loop
    returns an item as soon as one is recorded. *)
Lemma loop_recorded (items : list T) :
  forall m M x0,
    (0 <= M)%Q -> m = Some x0 ->
    exists x, loop items 0 m M = Some x /\ (x = x0 \/ In x items).
Proof.
  induction items as [|item items IH]; intros m M x0 HM ->; simpl.
  - apply Qle_bool_iff in HM. rewrite HM. eauto.
  - destruct (Qeq_bool (sc item) 1); [exists item; auto|].
    destruct (negb (Qeq_bool (sc item) 0) && Qle_bool M (sc item)) eqn:G.
    + apply records_iff in G. destruct G as [_ G].
      destruct (IH (Some item) (sc item) item) as (x & E & Hx);
        [lra | reflexivity |].
      exists x. split; [exact E|]. right. destruct Hx as [-> | Hx]; auto.
    + destruct (IH (Some x0) M x0 HM eq_refl) as (x & E & Hx).
      exists x. split; [exact E|]. destruct Hx; auto.
Qed.

Lemma loop_positive (items : list T) :
  forall m M,
    (0 <= M)%Q ->
    (exists y, In y items /\ (0 < sc y)%Q /\ (M <= sc y)%Q) ->
    exists x, loop items 0 m M = Some x /\
              (m = Some x \/ In x items).
Proof.
  induction items as [|item items IH]; intros m M HM (y & Hy & Hpos & Hge).
  - destruct Hy.
  - simpl. destruct (Qeq_bool (sc item) 1); [exists item; auto|].
    destruct (negb (Qeq_bool (sc item) 0) && Qle_bool M (sc item)) eqn:G.
    + apply records_iff in G. destruct G as [_ G].
      destruct (loop_recorded items (Some item) (sc item) item)
        as (x & E & Hx); [lra | reflexivity |].
      exists x. split; [exact E|]. right. destruct Hx as [-> | Hx]; auto.
    + apply records_not in G. destruct Hy as [<- | Hy].
      * exfalso. destruct G; lra.
      * destruct (IH m M HM) as (x & E & Hx); [eauto|].
        exists x. split; [exact E|]. destruct Hx; auto.
Qed.

(** Called without a minimum score, [findBestMatch] returns an item
    whenever one item scores above 0. *)
Lemma findBestMatch_default_accepts (items : list T) (y : T) :
  In y items -> (0 < sc y)%Q ->
  exists x, In x items /\
            findBestMatch calculateScore abbr items None = Some x.
Proof.
  intros Hy Hpos. unfold findBestMatch. simpl.
  destruct (loop_positive items None 0%Q) as (x & E & Hx).
  - lra.
  - exists y. repeat split; auto. lra.
  - exists x. split; [|exact E]. destruct Hx as [Hx | Hx]; [discriminate | auto].
Qed.






(** C8.  [findBestMatch] returns the first item whose score is exactly 1
    as soon as it meets it, whatever came before and whatever [minScore]
    is; and when no item has a perfect score it returns none exactly when
    every score is below [minScore] (the best score is below the
    threshold) or no item scores above 0. *)
Theorem findBestMatch_perfect_or_threshold
    (items : list T) (minScore : option Q) :
  (forall l1 x l2,
      items = l1 ++ x :: l2 ->
      (forall y, In y l1 -> ~ (sc y == 1)%Q) ->
      (sc x == 1)%Q ->
      findBestMatch calculateScore abbr items minScore = Some x)
  /\
  ((forall y, In y items -> ~ (sc y == 1)%Q) ->
   (findBestMatch calculateScore abbr items minScore = None <->
    (forall y, In y items -> (sc y < default 0%Q minScore)%Q) \/
    (forall y, In y items -> ~ (0 < sc y)%Q))).
Proof.
  split.
  - intros l1 x l2 -> Hl1 Hx. now apply findBestMatch_first_perfect.
  - apply findBestMatch_none_iff.
Qed.

(** C1 (amended).  When no item has a perfect score, [findBestMatch]
    returns the last item in input order that reaches the best score: an
    item [x] with a positive score that no earlier item exceeds and every
    later item stays strictly below is returned, provided its score reaches
    [minScore].  An equal score seen later replaces the recorded item. *)
Theorem findBestMatch_keeps_last_of_best
    (l1 : list T) (x : T) (l2 : list T) (minScore : option Q) :
  (forall y, In y (l1 ++ x :: l2) -> ~ (sc y == 1)%Q) ->
  (0 < sc x)%Q ->
  (forall y, In y l1 -> (sc y <= sc x)%Q) ->
  (forall y, In y l2 -> (sc y < sc x)%Q) ->
  (default 0%Q minScore <= sc x)%Q ->
  findBestMatch calculateScore abbr (l1 ++ x :: l2) minScore = Some x.
Proof.
  intros Hno Hpos H1 H2 Hmin. unfold findBestMatch.
  rewrite loop_last_best by (auto; lra).
  apply Qle_bool_iff in Hmin. now rewrite Hmin.
Qed.

End BestMatchFacts.

Section BestMatchExamples.

Import Stylesheet Samples.
Local Open Scope string_scope.

(** Worked instance of C8: a perfect hit is returned although an earlier
    item already scored, and a lone score of one half is rejected by a
    threshold of three quarters. *)
Lemma findBestMatch_perfect_or_threshold_witness :
  findBestMatch prefixScore (Some "pos") ["position"; "pos"; "pos-a"] None
    = Some "pos" /\
  findBestMatch prefixScore (Some "p") ["pa"] (Some (3 # 4)) = None.
Proof.
  split.
  - apply (proj1 (findBestMatch_perfect_or_threshold prefixScore
                    (Some "pos") ["position"; "pos"; "pos-a"] None)
             ["position"] "pos" ["pos-a"]).
    + reflexivity.
    + intros y [<- | []] E. vm_compute in E. discriminate.
    + reflexivity.
  - apply (proj2 (findBestMatch_perfect_or_threshold prefixScore
                    (Some "p") ["pa"] (Some (3 # 4)))).
    + intros y [<- | []] E. vm_compute in E. discriminate.
    + left. intros y [<- | []]. reflexivity.
Defined.

(** C1 as stated fails: ["pa"] and ["pb"] tie on the best score one half
    for the abbreviation ["p"], and the later one is returned. *)
Lemma findBestMatch_first_of_ties_counterexample :
  (scoreOf prefixScore (Some "p") "pa" == 1 # 2)%Q /\
  (scoreOf prefixScore (Some "p") "pb" == 1 # 2)%Q /\
  findBestMatch prefixScore (Some "p") ["pa"; "pb"] None = Some "pb" /\
  findBestMatch prefixScore (Some "p") ["pa"; "pb"] None <> Some "pa".
Proof.
  repeat split; try reflexivity. vm_compute. discriminate.
Qed.

Lemma findBestMatch_keeps_last_of_best_witness :
  findBestMatch prefixScore (Some "p") (["pa"] ++ "pb" :: ["pcd"]) None
    = Some "pb".
Proof.
  apply (findBestMatch_keeps_last_of_best prefixScore (Some "p")
           ["pa"] "pb" ["pcd"] None).
  - intros y Hy E. simpl in Hy.
    destruct Hy as [<- | [<- | [<- | []]]]; vm_compute in E; discriminate.
  - reflexivity.
  - intros y [<- | []]. vm_compute. discriminate.
  - intros y [<- | []]. reflexivity.
  - vm_compute. discriminate.
Defined.

End BestMatchExamples.

(** * Properties of the unmatched remainder *)

Section RemainderFacts.

Import Stylesheet.
Local Open Scope string_scope.

Lemma get_after_prefix (pre : string) (c : ascii) (suf : string) :
  String.get (String.length pre) (pre ++ String c suf) = Some c.
Proof. induction pre as [|a pre IH]; simpl; auto. Qed.

Lemma substring_all (s : string) : substring 0 (String.length s) s = s.
Proof. induction s as [|a s IH]; simpl; [reflexivity | now rewrite IH]. Qed.

Lemma slice_after_prefix (pre suf : string) :
  slice (pre ++ suf) (String.length pre) = suf.
Proof.
  unfold slice. induction pre as [|a pre IH]; simpl.
  - rewrite Nat.sub_0_r. apply substring_all.
  - exact IH.
Qed.

Lemma append_snoc (pre : string) (c : ascii) (suf : string) :
  (pre ++ String c EmptyString) ++ suf = pre ++ String c suf.
Proof.
  induction pre as [|a pre IH]; [reflexivity|].
  change (String a ((pre ++ String c EmptyString) ++ suf)
          = String a (pre ++ String c suf)).
  now f_equal.
Qed.

Lemma length_snoc (pre : string) (c : ascii) :
  String.length (pre ++ String c EmptyString) = S (String.length pre).
Proof. induction pre as [|a pre IH]; simpl; [reflexivity | now rewrite IH]. Qed.

(** The counting loop walks the suffixes of [abbr]. *)
Lemma loop_remainderFrom (str suf : string) :
  forall pre lastPos,
    getUnmatchedPart_loop (String.length suf) (pre ++ suf) str
      (String.length pre) lastPos
    = remainderFrom suf str lastPos.
Proof.
  induction suf as [|c suf IH]; intros pre lastPos; simpl.
  - reflexivity.
  - rewrite get_after_prefix.
    destruct (indexOf str c lastPos) as [pos|].
    + rewrite <- (IH (pre ++ String c EmptyString) (S pos)).
      now rewrite append_snoc, length_snoc.
    + apply slice_after_prefix.
Qed.

Lemma getUnmatchedPart_remainderFrom (abbr str : string) :
  getUnmatchedPart abbr str = remainderFrom abbr str 0.
Proof. apply (loop_remainderFrom str abbr EmptyString 0). Qed.

Lemma skip_empty (n : nat) : skip n EmptyString = EmptyString.
Proof. now destruct n. Qed.

Lemma indexOf_None (str : string) (ch : ascii) :
  forall from, indexOf str ch from = None -> ~ occurs ch (skip from str).
Proof.
  induction str as [|c str IH]; intros from E.
  - rewrite skip_empty. simpl. tauto.
  - destruct from as [|k]; simpl in *.
    + destruct (Ascii.eqb c ch) eqn:Ec; [discriminate|].
      apply Ascii.eqb_neq in Ec.
      destruct (indexOf str ch 0) eqn:E0; [discriminate|].
      specialize (IH 0%nat E0). simpl in IH.
      replace (skip 0 str) with str in IH by now destruct str.
      tauto.
    + destruct (indexOf str ch k) eqn:Ek; [discriminate|].
      now apply IH.
Qed.

Lemma skip_0 (s : string) : skip 0 s = s.
Proof. now destruct s. Qed.

(** A found position splits what lies after the cursor. *)
Lemma indexOf_Some (str : string) (ch : ascii) :
  forall from pos,
    indexOf str ch from = Some pos ->
    exists pre,
      skip from str = pre ++ String ch (skip (S pos) str) /\
      ~ occurs ch pre.
Proof.
  induction str as [|c str IH]; intros from pos E.
  - discriminate.
  - destruct from as [|k]; simpl in E.
    + destruct (Ascii.eqb c ch) eqn:Ec.
      * apply Ascii.eqb_eq in Ec. subst c. injection E as <-.
        exists EmptyString. simpl. tauto.
      * apply Ascii.eqb_neq in Ec.
        destruct (indexOf str ch 0) as [pos'|] eqn:E0; [|discriminate].
        injection E as <-.
        destruct (IH 0%nat pos' E0) as (pre & Hs & Hn).
        change (skip 0 str) with str in Hs.
        exists (String c pre). split.
        -- change (String c str
                   = String c (pre ++ String ch (skip (S pos') str))).
           now f_equal.
        -- simpl. tauto.
    + destruct (indexOf str ch k) as [pos'|] eqn:Ek; [|discriminate].
      injection E as <-.
      destruct (IH k pos' Ek) as (pre & Hs & Hn).
      exists pre. simpl. split; assumption.
Qed.

Lemma Subseq_occurs (ch : ascii) (q s : string) :
  Subseq (String ch q) s -> occurs ch s.
Proof.
  intros S. remember (String ch q) as p eqn:Ep.
  induction S as [s | p c s S IH | p c s S IH].
  - discriminate.
  - simpl. right. auto.
  - injection Ep as -> ->. simpl. now left.
Qed.

Lemma Subseq_tail (a : ascii) (q s : string) :
  Subseq (String a q) s -> Subseq q s.
Proof.
  intros S. remember (String a q) as p eqn:Ep.
  induction S as [s | p c s S IH | p c s S IH].
  - discriminate.
  - apply Subseq_skip. auto.
  - injection Ep as -> ->. now apply Subseq_skip.
Qed.

Lemma Subseq_after (pre : string) (ch : ascii) (q tail : string) :
  ~ occurs ch pre ->
  Subseq (String ch q) (pre ++ String ch tail) -> Subseq q tail.
Proof.
  induction pre as [|b pre IH]; simpl; intros Hn S.
  - inversion S; subst; [now apply (Subseq_tail ch) | assumption].
  - inversion S; subst; [apply IH; tauto | tauto].
Qed.

Lemma Subseq_before (pre p s : string) :
  Subseq p s -> Subseq p (pre ++ s).
Proof.
  intros S. induction pre as [|b pre IH]; simpl;
    [assumption | now apply Subseq_skip].
Qed.

(** What the cursor has consumed is the longest prefix of the pattern
    that is a subsequence of the candidate after the cursor. *)
Lemma remainderFrom_longest (str abbr : string) :
  forall cursor,
    exists p,
      abbr = p ++ remainderFrom abbr str cursor /\
      Subseq p (skip cursor str) /\
      (remainderFrom abbr str cursor = EmptyString \/
       exists c r,
         remainderFrom abbr str cursor = String c r /\
         ~ Subseq (p ++ String c EmptyString) (skip cursor str)).
Proof.
  induction abbr as [|ch abbr IH]; intros cursor.
  - exists EmptyString. split; [reflexivity|]. split; [constructor|].
    now left.
  - cbn [remainderFrom].
    destruct (indexOf str ch cursor) as [pos|] eqn:E.
    + destruct (indexOf_Some _ _ _ _ E) as (pre & Hs & Hn).
      destruct (IH (S pos)) as (p & Hp & Sp & Hr).
      exists (String ch p). rewrite Hs. split; [|split].
      * change (String ch abbr
                = String ch (p ++ remainderFrom abbr str (S pos))).
        now f_equal.
      * apply Subseq_before. now apply Subseq_take.
      * destruct Hr as [Hr | (c & r & Hr & Hno)]; [now left | right].
        exists c, r. split; [assumption|].
        intros Sub. apply Hno.
        change (Subseq (String ch (p ++ String c EmptyString))
                  (pre ++ String ch (skip (S pos) str))) in Sub.
        now apply (Subseq_after pre ch).
    + exists EmptyString. split; [reflexivity|]. split; [constructor|].
      right. exists ch, abbr. split; [reflexivity|].
      intros Sub. apply (indexOf_None _ _ _ E).
      now apply (Subseq_occurs ch EmptyString).
Qed.

(** C6.  [getUnmatchedPart] returns the part of the pattern left when a
    cursor has advanced greedily through the candidate, one pattern
    character at a time, up to the first character not found: it is the
    remainder of the specification, what precedes it is the longest prefix
    of the pattern whose characters appear in order in the candidate, and
    the three quoted values are as stated. *)
Theorem getUnmatchedPart_remainder :
  getUnmatchedPart "poas" "position" = "as" /\
  getUnmatchedPart "abc" "xyz" = "abc" /\
  getUnmatchedPart "pos" "position" = EmptyString /\
  forall abbr str,
    getUnmatchedPart abbr str = remainderFrom abbr str 0 /\
    exists p,
      abbr = p ++ getUnmatchedPart abbr str /\
      Subseq p str /\
      (getUnmatchedPart abbr str = EmptyString \/
       exists c r,
         getUnmatchedPart abbr str = String c r /\
         ~ Subseq (p ++ String c EmptyString) str).
Proof.
  repeat split; try reflexivity.
  - apply getUnmatchedPart_remainderFrom.
  - rewrite getUnmatchedPart_remainderFrom.
    destruct (remainderFrom_longest str abbr 0) as (p & Hp & Sp & Hr).
    simpl in Sp. exists p. split; [exact Hp|]. split; [exact Sp|].
    destruct Hr as [Hr | (c & r & Hr & Hno)]; [now left | right].
    exists c, r. split; assumption.
Qed.

End RemainderFacts.

(** * Properties of numeric unit inference *)

Section NumericFacts.

Import Stylesheet.
Local Open Scope list_scope.

Lemma toInt32_whole (z : Z) :
  (- 2 ^ 31 <= z < 2 ^ 31)%Z -> toInt32 (inject_Z z) = z.
Proof.
  intros Hz. unfold toInt32, inject_Z. cbn [Qnum Qden].
  rewrite Z.quot_1_r.
  destruct (Z.leb_spec (2 ^ 31) (z mod 2 ^ 32)) as [L | L].
  - destruct (Z.neg_nonneg_cases z) as [Hn | Hp].
    + rewrite <- (Z.mod_add z 1 (2 ^ 32)) by lia.
      rewrite Z.mod_small by lia. lia.
    + rewrite Z.mod_small in L by lia. lia.
  - destruct (Z.neg_nonneg_cases z) as [Hn | Hp].
    + rewrite <- (Z.mod_add z 1 (2 ^ 32)) in L by lia.
      rewrite Z.mod_small in L by lia. lia.
    + rewrite Z.mod_small by lia. reflexivity.
Qed.

(** The test [value === (value | 0)] holds exactly for the whole numbers
    of the signed 32-bit range. *)
Lemma int32_test_true (value : Q) :
  isWhole value -> inInt32 value ->
  Qeq_bool value (inject_Z (toInt32 value)) = true.
Proof.
  intros [z Hz] [Hlo Hhi]. apply Qeq_bool_iff.
  assert (Hr : (- 2 ^ 31 <= z < 2 ^ 31)%Z).
  { rewrite Hz in Hlo, Hhi. rewrite <- Zle_Qle in Hlo.
    rewrite <- Zlt_Qlt in Hhi. lia. }
  assert (E : toInt32 value = z).
  { rewrite <- (toInt32_whole z Hr). unfold toInt32.
    assert (Q : (Qnum value ÷ Z.pos (Qden value) = z)%Z).
    { unfold Qeq, inject_Z in Hz. cbn [Qnum Qden] in Hz.
      rewrite Z.mul_1_r in Hz. rewrite Hz. now rewrite Z.quot_mul. }
    rewrite Q. unfold inject_Z. cbn [Qnum Qden].
    now rewrite Z.quot_1_r. }
  now rewrite E.
Qed.


Lemma truthy_false (s : string) : truthy s = false <-> s = EmptyString.
Proof. destruct s; simpl; split; congruence. Qed.

Lemma truthyUnit_text (s : string) : truthyUnit (Text s) = truthy s.
Proof. now destruct s. Qed.


Lemma aliasOr_truthy (aliases : gmap string string) (unit : Unit) :
  truthyUnit unit = true -> truthyUnit (aliasOr aliases unit) = true.
Proof.
  intros Hu. unfold aliasOr.
  destruct (getProperty aliases (unitText unit)) as [a|]; [|exact Hu].
  destruct (truthyUnit a) eqn:Ha; assumption.
Qed.


End NumericFacts.

Section NumericResults.

Import Stylesheet SampleData.
Local Open Scope string_scope.
Local Open Scope list_scope.

(** C4, at the input where the source departs from it.  The property
    [width] is not unitless and 2147483648 is a whole number, non-zero and
    without a unit, yet the token receives the float unit [em] and not the
    integer unit [px]: [value | 0] wraps to -2147483648, so the test
    [value === (value | 0)] fails for whole numbers from 2^31 on.  One
    below, 2147483647 receives [px]. *)
Theorem resolveNumericValue_large_whole_number :
  isWhole (inject_Z 2147483648) /\
  includes (unitless sampleConfig) (Some "width") = false /\
  toInt32 (inject_Z 2147483648) = (-2147483648)%Z /\
  resolveNumericValue
    (numberNode "width" (inject_Z 2147483648) EmptyString) sampleConfig
  = numberNode "width" (inject_Z 2147483648) "em" /\
  resolveNumericValue
    (numberNode "width" (inject_Z 2147483647) EmptyString) sampleConfig
  = numberNode "width" (inject_Z 2147483647) "px".
Proof.
  split; [|split; [|split; [|split]]].
  - now exists 2147483648%Z.
  - reflexivity.
  - reflexivity.
  - reflexivity.
  - reflexivity.
Qed.



(** No text of an inherited member is the name of one. *)
Lemma inherited_memberText (m : Member) : inherited (memberText m) = None.
Proof. now destruct m. Qed.





(** A unit that is the name of an inherited member is replaced although
    no alias is configured for it: [10toString] comes out with the function
    [toString] as its unit.  And an alias that yields such a name is not
    stable: with [c] standing for [constructor], the first run turns [10c]
    into [10constructor] and the second run replaces that unit by the
    function [Object]. *)
Example resolveNumericValue_inherited_member :
  unitAliases sampleConfig !! "toString" = None /\
  resolveNumericValue (numberNode "width" 10 "toString") sampleConfig
  = {| node_name := Some "width";
       node_value := [mkCSSValue [NumberValue 10 (Inherited ToString)]];
       node_important := false |} /\
  resolveNumericValue (numberNode "width" 10 "c") inheritedConfig
  = numberNode "width" 10 "constructor" /\
  resolveNumericValue
    (resolveNumericValue (numberNode "width" 10 "c") inheritedConfig)
    inheritedConfig
  = {| node_name := Some "width";
       node_value :=
         [mkCSSValue [NumberValue 10 (Inherited ObjectConstructor)]];
       node_important := false |}.
Proof. repeat split; reflexivity. Qed.

End NumericResults.

(** * Properties of the node resolver *)

Section ResolverFacts.

Import Stylesheet.
Local Open Scope list_scope.

Variable calculateScore : option string -> option string -> Q.
Variable getKeywords : CSSSnippetProperty -> list CSSKeywordRef.
Variable numberToString : Q -> string.

Local Abbreviation resolveNode' :=
  (resolveNode calculateScore getKeywords numberToString).
Local Abbreviation resolveAsProperty' :=
  (resolveAsProperty calculateScore getKeywords numberToString).
Local Abbreviation resolveAsPropertyValue' :=
  (resolveAsPropertyValue calculateScore getKeywords).
Local Abbreviation resolveSnippetKeyword' :=
  (resolveSnippetKeyword calculateScore getKeywords).
Local Abbreviation resolveGlobalKeyword' :=
  (resolveGlobalKeyword calculateScore).

Lemma resolveNumericToken_sameUpToUnit (config : Config)
    (name : option string) (t : Value) :
  sameUpToUnit t (resolveNumericToken config name t).
Proof.
  destruct t as [s | value unit | r g b a raw | s q | f args | i s];
    try (left; reflexivity).
  unfold resolveNumericToken.
  destruct (truthyUnit unit); [right; eauto|].
  destruct (negb (Qeq_bool value 0) && negb (includes (unitless config) name));
    [right; eauto | left; reflexivity].
Qed.

(** Unit inference keeps the name and the shape of the value. *)
Lemma resolveNumericValue_sameStructure (node : CSSProperty) (config : Config) :
  sameStructure node (resolveNumericValue node config).
Proof.
  unfold sameStructure, resolveNumericValue, set_value.
  cbn [node_name node_value node_important].
  repeat split.
  induction (node_value node) as [|[vs] values IH]; constructor; [|exact IH].
  cbn [css_value].
  induction vs as [|t vs IHvs]; constructor; [|exact IHvs].
  apply resolveNumericToken_sameUpToUnit.
Qed.

(** C7.  Outside context mode, a node whose name gets no match from
    [findBestMatch] at the configured minimum score is resolved without
    raising: the result is the node after unit inference alone, with its
    name, and its values token for token, as they were up to the units of
    numbers. *)
Theorem resolveNode_no_match (node : CSSProperty)
    (snippets : list CSSSnippet) (config : Config) :
  contextOf config = None ->
  findBestMatch calculateScore (node_name node) snippets
    (Some (fuzzySearchMinScore config)) = None ->
  resolveNode' node snippets config = Ok (resolveNumericValue node config) /\
  sameStructure node (resolveNumericValue node config).
Proof.
  intros Hctx Hnone. split.
  - unfold resolveNode. now rewrite Hctx, Hnone.
  - apply resolveNumericValue_sameStructure.
Qed.







End ResolverFacts.

Section ResolverExamples.

Import Stylesheet Samples SampleData SampleSnippets.
Local Open Scope string_scope.
Local Open Scope list_scope.

(** Worked instance of C7: [zzz10] matches nothing in a dictionary that
    holds [pos]; the node keeps its name and its number gets the unit. *)
Lemma resolveNode_no_match_witness :
  resolveNode prefixScore sampleKeywords sampleNumberToString
    (numberNode "zzz" 10 EmptyString) [Property posSnippet] sampleConfig
  = Ok (resolveNumericValue (numberNode "zzz" 10 EmptyString) sampleConfig) /\
  sameStructure (numberNode "zzz" 10 EmptyString)
    (resolveNumericValue (numberNode "zzz" 10 EmptyString) sampleConfig).
Proof.
  apply (resolveNode_no_match prefixScore sampleKeywords sampleNumberToString
           (numberNode "zzz" 10 EmptyString) [Property posSnippet]
           sampleConfig).
  - reflexivity.
  - reflexivity.
Defined.



End ResolverExamples.

(** * Properties of field wrapping *)

Section WrapFacts.

Import Stylesheet.
Local Open Scope list_scope.

Variable numberToString : Q -> string.

Local Abbreviation wrap := (wrapWithField numberToString).
Local Abbreviation labels' := (labels numberToString).
Local Abbreviation labelsOfToken' := (labelsOfToken numberToString).

Lemma wrapWithField_unfold (vs : list Value) (state : WrapState) :
  wrap (mkCSSValue vs) state =
  (mkCSSValue (fst (wrapTokens numberToString vs [] state)),
   snd (wrapTokens numberToString vs [] state)).
Proof.
  change (wrap (mkCSSValue vs) state)
    with (let (value, state') := wrapTokens numberToString vs [] state in
          (mkCSSValue value, state')).
  now destruct (wrapTokens numberToString vs [] state).
Qed.

Lemma fieldsOf_app (a b : list Value) :
  fieldsOf (a ++ b) = fieldsOf a ++ fieldsOf b.
Proof.
  induction a as [|t a IH]; [reflexivity|].
  destruct t; simpl; rewrite IH; reflexivity.
Qed.

Lemma numbered_app (start : nat) (a b : list string) :
  numbered start (a ++ b) = numbered start a ++ numbered (start + length a) b.
Proof.
  unfold numbered. revert start.
  induction a as [|x a IH]; intros start; simpl.
  - now rewrite Nat.add_0_r.
  - f_equal. rewrite IH. now rewrite Nat.add_succ_r.
Qed.

Lemma hasField_cons (v : Value) (rest : list Value) :
  hasField (mkCSSValue (v :: rest)) = false ->
  match v with
  | Field _ _ => False
  | FunctionCall _ args => existsb hasField args = false
  | _ => True
  end /\ hasField (mkCSSValue rest) = false.
Proof.
  destruct v as [s | value unit | r g b a raw | s q | f args | i s];
    simpl; auto; try discriminate.
  destruct (existsb hasField args); [discriminate | auto].
Qed.

Lemma wrapArguments_numbers (il : nat) (args : list CSSValue) :
  Forall (numbersFrom numberToString) args ->
  existsb hasField args = false ->
  forall i value state,
    fieldsOf (fst (wrapArguments numberToString il args i value state))
    = fieldsOf value ++ numbered (state_index state) (flat_map labels' args)
    /\
    state_index (snd (wrapArguments numberToString il args i value state))
    = state_index state + length (flat_map labels' args).
Proof.
  induction 1 as [|arg args Harg Hargs IH]; intros Hno i value state.
  - simpl. rewrite app_nil_r. split; [reflexivity | lia].
  - simpl in Hno. apply orb_false_iff in Hno. destruct Hno as [Hno1 Hno2].
    cbn [wrapArguments flat_map].
    destruct (Harg Hno1 state) as [Hf Hs].
    destruct (wrap arg state) as [wrapped state'] eqn:E.
    cbn [fst snd] in Hf, Hs.
    destruct (IH Hno2 (S i)
                (if negb (Nat.eqb i (il - 1))
                 then (value ++ css_value wrapped) ++ [literal ", "]
                 else value ++ css_value wrapped) state') as [IHf IHs].
    rewrite IHf, IHs, Hs. split; [|rewrite length_app; lia].
    rewrite numbered_app, <- Hf, app_assoc. f_equal.
    destruct (negb (Nat.eqb i (il - 1)));
      rewrite ?fieldsOf_app; simpl; rewrite ?app_nil_r; reflexivity.
Qed.

(** A token that becomes one field with the text [txt]. *)
Ltac one_field IH value state txt :=
  let IHf := fresh "IHf" in
  let IHs := fresh "IHs" in
  destruct (IH (value ++ [field (state_index state) txt]) (bump state))
    as [IHf IHs];
  rewrite IHf; rewrite IHs; rewrite fieldsOf_app;
  cbn [fieldsOf field bump state_index];
  rewrite <- app_assoc;
  split;
  [ cbn [app]; unfold numbered; cbn [length seq combine]; reflexivity
  | cbn [app length]; lia ].

Lemma wrapTokens_numbers (vs : list Value) :
  Forall (argumentsHave (numbersFrom numberToString)) vs ->
  hasField (mkCSSValue vs) = false ->
  forall value state,
    fieldsOf (fst (wrapTokens numberToString vs value state))
    = fieldsOf value
      ++ numbered (state_index state) (flat_map labelsOfToken' vs)
    /\
    state_index (snd (wrapTokens numberToString vs value state))
    = state_index state + length (flat_map labelsOfToken' vs).
Proof.
  induction 1 as [|v vs Hv Hvs IH]; intros Hno value state.
  - simpl. rewrite app_nil_r. split; [reflexivity | lia].
  - apply hasField_cons in Hno. destruct Hno as [Hv' Hno].
    specialize (IH Hno).
    destruct v as [s | n u | r g b a raw | s q | f args | i s];
      try contradiction;
      cbn [wrapTokens flat_map labelsOfToken].
    1: one_field IH value state s.
    1: one_field IH value state (numberToString n ++ unitText u)%string.
    1: one_field IH value state raw.
    1: one_field IH value state (quoteChar q ++ s ++ quoteChar q)%string.
    cbn [argumentsHave] in Hv.
    destruct (wrapArguments_numbers (length args) args Hv Hv' 0
                (value ++ [field (state_index state) f; literal "("])
                (bump state)) as [Af As].
    destruct (wrapArguments numberToString (length args) args 0
                (value ++ [field (state_index state) f; literal "("])
                (bump state)) as [value' state'] eqn:E.
    cbn [fst snd] in Af, As.
    destruct (IH (value' ++ [literal ")"]) state') as [IHf IHs].
    rewrite IHf, IHs, As. cbn [bump state_index].
    split.
    2: { cbn [app length]. rewrite length_app. lia. }
    rewrite fieldsOf_app, Af, fieldsOf_app. cbn [fieldsOf field literal].
    rewrite app_nil_r, <- !app_assoc. f_equal.
    change ((f :: flat_map labels' args) ++ flat_map labelsOfToken' vs)
      with ([f] ++ flat_map labels' args ++ flat_map labelsOfToken' vs).
    rewrite !numbered_app. cbn [bump state_index length].
    replace (state_index state + 1) with (S (state_index state)) by lia.
    reflexivity.
Qed.

(** A value tree without fields is numbered from the index of the state
    on, token after token, and leaves the state advanced by the number of
    its tokens. *)
Lemma wrapWithField_numbers (node : CSSValue) : numbersFrom numberToString node.
Proof.
  induction node as [vs Hvs] using CSSValue_nested_ind.
  intros Hno state. rewrite wrapWithField_unfold. cbn [fst snd css_value].
  destruct (wrapTokens_numbers vs Hvs Hno [] state) as [Hf Hs].
  rewrite Hf, Hs. split; reflexivity.
Qed.

Lemma arguments_count (args : list CSSValue) :
  Forall (fun arg => hasField arg = false ->
                     length (labels' arg) = leafTokens arg + functionCalls arg)
    args ->
  existsb hasField args = false ->
  length (flat_map labels' args)
  = list_sum (map leafTokens args) + list_sum (map functionCalls args).
Proof.
  induction 1 as [|arg args Harg _ IH]; intros Hno; [reflexivity|].
  simpl in Hno. apply orb_false_iff in Hno. destruct Hno as [Hno1 Hno2].
  cbn [flat_map map]. rewrite length_app, (Harg Hno1).
  change (list_sum (leafTokens arg :: map leafTokens args))
    with (leafTokens arg + list_sum (map leafTokens args)).
  change (list_sum (functionCalls arg :: map functionCalls args))
    with (functionCalls arg + list_sum (map functionCalls args)).
  rewrite (IH Hno2). lia.
Qed.

Lemma tokens_count (vs : list Value) :
  Forall (argumentsHave
            (fun arg => hasField arg = false ->
                        length (labels' arg)
                        = leafTokens arg + functionCalls arg)) vs ->
  hasField (mkCSSValue vs) = false ->
  length (flat_map labelsOfToken' vs)
  = list_sum (map leafTokensOf vs) + list_sum (map functionCallsOf vs).
Proof.
  induction 1 as [|v vs Hv _ IH]; intros Hno; [reflexivity|].
  apply hasField_cons in Hno. destruct Hno as [Hv' Hno].
  specialize (IH Hno). cbn [flat_map map]. rewrite length_app.
  change (list_sum (leafTokensOf v :: map leafTokensOf vs))
    with (leafTokensOf v + list_sum (map leafTokensOf vs)).
  change (list_sum (functionCallsOf v :: map functionCallsOf vs))
    with (functionCallsOf v + list_sum (map functionCallsOf vs)).
  rewrite IH.
  destruct v as [s | n u | r g b a raw | s q | f args | i s];
    try contradiction;
    cbn [labelsOfToken leafTokensOf functionCallsOf length]; try lia.
  cbn [argumentsHave] in Hv.
  rewrite (arguments_count args Hv Hv'). lia.
Qed.

(** In a value tree without fields every leaf token and every function
    call gives one placeholder text. *)
Lemma countTokens_leaves (node : CSSValue) :
  hasField node = false ->
  countTokens numberToString node = leafTokens node + functionCalls node.
Proof.
  unfold countTokens.
  induction node as [vs Hvs] using CSSValue_nested_ind.
  intros Hno. now apply tokens_count.
Qed.

End WrapFacts.

Section WrapResults.

Import Stylesheet.
Local Open Scope list_scope.

Variable calculateScore : option string -> option string -> Q.
Variable getKeywords : CSSSnippetProperty -> list CSSKeywordRef.
Variable numberToString : Q -> string.

Lemma numbered_indices (start : nat) (texts : list string) :
  map fst (numbered start texts) = seq start (length texts).
Proof.
  unfold numbered. revert start.
  induction texts as [|x texts IH]; intros start; simpl;
    [reflexivity | now rewrite IH].
Qed.

(** C2 (amended).  When [resolveAsProperty] wraps the default value of a
    snippet (the node has no value, no keyword is resolved, and the
    default value holds no field), every value of the default value is
    wrapped by a call of [wrapWithField] of its own, with a counter of its
    own that starts at 1.  The fields of one value are the texts of its
    tokens in left-to-right, depth-first order, numbered 1, 2, ..., M
    without gap or repeat, where M is the number of its leaf tokens plus
    the number of its function calls: the name of a function call takes an
    index of its own, before the arguments.  The indices of the node's
    value as a whole start again at 1 with each value of the default
    value.  Within one call one counter is threaded through the tree:
    from any starting index the fields are numbered consecutively and the
    counter ends advanced by M. *)
Theorem resolveAsProperty_numbers_fields
    (node : CSSProperty) (snippet : CSSSnippetProperty) (config : Config)
    (abbr : string) (defaultValue : list CSSValue)
    (alternatives : list (list CSSValue)) :
  node_value node = [] ->
  node_name node = Some abbr ->
  findBestMatch calculateScore
    (Some (getUnmatchedPart abbr (prop_key snippet)))
    (getKeywords snippet) None = None ->
  prop_value snippet = defaultValue :: alternatives ->
  existsb hasField defaultValue = false ->
  (exists wrapped,
      resolveAsProperty calculateScore getKeywords numberToString
        node snippet config
      = Ok (set_value wrapped (set_name (Some (property snippet)) node)) /\
      Forall2
        (fun tree w =>
           fieldsOf (css_value w) = numbered 1 (labels numberToString tree) /\
           map fst (fieldsOf (css_value w))
           = seq 1 (countTokens numberToString tree) /\
           countTokens numberToString tree
           = leafTokens tree + functionCalls tree)
        defaultValue wrapped /\
      fieldIndices wrapped
      = flat_map (fun tree => seq 1 (leafTokens tree + functionCalls tree))
          defaultValue)
  /\
  (forall tree state,
      hasField tree = false ->
      map fst (fieldsOf (css_value
                           (fst (wrapWithField numberToString tree state))))
      = seq (state_index state) (countTokens numberToString tree) /\
      state_index (snd (wrapWithField numberToString tree state))
      = state_index state + countTokens numberToString tree /\
      countTokens numberToString tree = leafTokens tree + functionCalls tree).
Proof.
  intros Hval Hname Hnone Hdefault Hno. split.
  - exists (map (fun n => fst (wrapWithField numberToString n freshWrapState))
              defaultValue).
    split; [|split].
    + unfold resolveAsProperty, resolveSnippetKeyword.
      cbn [node_value set_name]. rewrite Hval, Hname, Hnone, Hdefault.
      cbn [bind snd fst]. now rewrite Hno.
    + clear Hdefault.
      induction defaultValue as [|tree trees IH]; cbn [map]; constructor.
      * simpl in Hno. apply orb_false_iff in Hno. destruct Hno as [Hno1 _].
        destruct (wrapWithField_numbers numberToString tree Hno1
                    freshWrapState) as [Hw _].
        split; [exact Hw|]. split; [|now apply countTokens_leaves].
        rewrite Hw. apply numbered_indices.
      * apply IH. simpl in Hno. apply orb_false_iff in Hno. tauto.
    + clear Hdefault. unfold fieldIndices.
      induction defaultValue as [|tree trees IH]; [reflexivity|].
      simpl in Hno. apply orb_false_iff in Hno. destruct Hno as [Hno1 Hno2].
      cbn [map flat_map]. rewrite (IH Hno2). f_equal.
      destruct (wrapWithField_numbers numberToString tree Hno1
                  freshWrapState) as [Hw _].
      rewrite Hw, numbered_indices.
      now rewrite <- (countTokens_leaves numberToString tree Hno1).
  - intros tree state Hfree.
    destruct (wrapWithField_numbers numberToString tree Hfree state)
      as [Hf Hs].
    split; [|split; [exact Hs | now apply countTokens_leaves]].
    rewrite Hf. apply numbered_indices.
Qed.

End WrapResults.

Section WrapExamples.

Import Stylesheet Samples SampleData SampleSnippets.
Local Open Scope string_scope.
Local Open Scope list_scope.

(** Worked instance of C2: the default value [scale(x, 2) none] of [trf]
    becomes fields 1 to 4 for [scale], [x], [2] and [none]. *)
Lemma resolveAsProperty_numbers_fields_witness :
  (exists wrapped,
      resolveAsProperty prefixScore sampleKeywords sampleNumberToString
        (emptyNode "trf") transformSnippet sampleConfig
      = Ok (set_value wrapped (set_name (Some "transform") (emptyNode "trf")))
      /\
      Forall2
        (fun tree w =>
           fieldsOf (css_value w)
           = numbered 1 (labels sampleNumberToString tree) /\
           map fst (fieldsOf (css_value w))
           = seq 1 (countTokens sampleNumberToString tree) /\
           countTokens sampleNumberToString tree
           = leafTokens tree + functionCalls tree)
        [mkCSSValue [FunctionCall "scale"
                       [mkCSSValue [Literal "x"];
                        mkCSSValue [NumberValue 2 EmptyString]];
                     Literal "none"]]
        wrapped /\
      fieldIndices wrapped
      = flat_map (fun tree => seq 1 (leafTokens tree + functionCalls tree))
          [mkCSSValue [FunctionCall "scale"
                         [mkCSSValue [Literal "x"];
                          mkCSSValue [NumberValue 2 EmptyString]];
                       Literal "none"]])
  /\
  (forall tree state,
      hasField tree = false ->
      map fst (fieldsOf (css_value
                           (fst (wrapWithField sampleNumberToString
                                   tree state))))
      = seq (state_index state) (countTokens sampleNumberToString tree) /\
      state_index (snd (wrapWithField sampleNumberToString tree state))
      = state_index state + countTokens sampleNumberToString tree /\
      countTokens sampleNumberToString tree
      = leafTokens tree + functionCalls tree).
Proof.
  apply (resolveAsProperty_numbers_fields prefixScore sampleKeywords
           sampleNumberToString (emptyNode "trf") transformSnippet
           sampleConfig "trf" _ []).
  - reflexivity.
  - reflexivity.
  - reflexivity.
  - reflexivity.
  - reflexivity.
Defined.

(** C2 as stated fails in two ways.  The default value [a, b] of [ls]
    holds two leaf tokens, one in each of its two values; each value is
    wrapped with a counter of its own, so both fields get the index 1: the
    indices are not 1, 2 and they collide.  The default value
    [scale(x, 2) none] of [trf] holds the three leaf tokens [x], [2] and
    [none] and gets the four indices 1 to 4, the name [scale] taking the
    first. *)
Lemma resolveAsProperty_shared_counter_counterexample :
  (exists wrapped,
      resolveAsProperty prefixScore sampleKeywords sampleNumberToString
        (emptyNode "ls") listSnippet sampleConfig
      = Ok (set_value wrapped (set_name (Some "list") (emptyNode "ls"))) /\
      list_sum (map leafTokens (hd [] (prop_value listSnippet))) = 2 /\
      fieldIndices wrapped = [1; 1] /\
      fieldIndices wrapped <> seq 1 2 /\
      ~ List.NoDup (fieldIndices wrapped))
  /\
  (exists wrapped,
      resolveAsProperty prefixScore sampleKeywords sampleNumberToString
        (emptyNode "trf") transformSnippet sampleConfig
      = Ok (set_value wrapped (set_name (Some "transform") (emptyNode "trf")))
      /\
      list_sum (map leafTokens (hd [] (prop_value transformSnippet))) = 3 /\
      fieldIndices wrapped = [1; 2; 3; 4] /\
      fieldIndices wrapped <> seq 1 3).
Proof.
  split.
  - exists [mkCSSValue [Field 1 "a"]; mkCSSValue [Field 1 "b"]].
    repeat split; try reflexivity.
    + discriminate.
    + cbn. intros Hnd. apply List.NoDup_cons_iff in Hnd.
      destruct Hnd as [Hnot _]. apply Hnot. now left.
  - exists [mkCSSValue [Field 1 "scale"; Literal "("; Field 2 "x";
                        Literal ", "; Field 3 "2"; Literal ")";
                        Field 4 "none"]].
    repeat split; try reflexivity. discriminate.
Qed.

(** The wrapped default value of [trf], token by token. *)
Example resolveAsProperty_transform :
  resolveAsProperty prefixScore sampleKeywords sampleNumberToString
    (emptyNode "trf") transformSnippet sampleConfig
  = Ok {| node_name := Some "transform";
          node_value :=
            [mkCSSValue [Field 1 "scale"; Literal "("; Field 2 "x";
                         Literal ", "; Field 3 "2"; Literal ")";
                         Field 4 "none"]];
          node_important := false |}.
Proof. reflexivity. Qed.

(** Each value of a default value that is a list is a tree of its own,
    wrapped by a call of its own: the counter starts at 1 for each. *)
Example resolveAsProperty_list_default :
  resolveAsProperty prefixScore sampleKeywords sampleNumberToString
    (emptyNode "ls") listSnippet sampleConfig
  = Ok {| node_name := Some "list";
          node_value := [mkCSSValue [Field 1 "a"]; mkCSSValue [Field 1 "b"]];
          node_important := false |}.
Proof. reflexivity. Qed.

End WrapExamples.

(** * Properties of the tree walker *)

Section WalkFacts.

Import Walk.
Local Open Scope list_scope.

Variables Payload OutputStream OutputProfile Extra : Type.

Local Abbreviation Node := (AbbreviationNode Payload).
Local Abbreviation State :=
  (WalkState Payload OutputStream OutputProfile Extra).
Local Abbreviation Prog := (Program Payload OutputStream OutputProfile Extra).
Local Abbreviation Entries := (Log Payload OutputStream OutputProfile Extra).

Variable visitor : Visitor Payload OutputStream OutputProfile Extra.

(** ** Height and termination *)

Lemma height_node (payload : Payload) (children : list Node) :
  height (mkNode payload children) = S (forestHeight children).
Proof. reflexivity. Qed.

Lemma height_in_forest (n : Node) (l : list Node) :
  In n l -> height n <= forestHeight l.
Proof.
  induction l as [|c l IH]; intros Hin; [destruct Hin|].
  simpl. destruct Hin as [-> | Hin]; [lia | specialize (IH Hin); lia].
Qed.

Lemma height_child (ctx node : Node) :
  In node (node_children ctx) -> height node < height ctx.
Proof.
  destruct ctx as [payload children]. intros Hin.
  rewrite height_node. apply height_in_forest in Hin. simpl in Hin. lia.
Qed.

(** One invariant for a run of the visitor's steps: [J] holds of the state
    between the steps and [G] of every recorded entry. *)
Lemma runVisitor_invariant
    (next : WalkNext Payload OutputStream OutputProfile Extra) (ctx : Node)
    (J : State -> Prop) (G : Node * State -> Prop)
    (onNext : Node -> Prop) (onUpdate : (State -> State) -> Prop) :
  (forall s, J s -> G (ctx, s)) ->
  (forall f s, onUpdate f -> J s -> J (f s)) ->
  (forall node index items s s1 log1,
      onNext node -> J s -> next node index items s = Some (s1, log1) ->
      J s1 /\ Forall G log1) ->
  forall p : Prog,
    Each onNext onUpdate p ->
    forall s s' log,
      J s -> runVisitor next ctx p s = Some (s', log) ->
      J s' /\ Forall G log.
Proof.
  intros HG HU HN p HE.
  induction HE as [| node index items k Hn Hk IH | f k Hf Hk IH | k Hk IH];
    intros s s' log HJ Hrun; simpl in Hrun.
  - injection Hrun as <- <-. split; [exact HJ|].
    constructor; [now apply HG | constructor].
  - destruct (next node index items s) as [[s1 log1]|] eqn:E1;
      [|discriminate].
    destruct (HN _ _ _ _ _ _ Hn HJ E1) as [HJ1 HG1].
    destruct (runVisitor next ctx k s1) as [[s2 log2]|] eqn:E2;
      [|discriminate].
    injection Hrun as <- <-.
    destruct (IH _ _ _ HJ1 E2) as [HJ2 HG2].
    split; [exact HJ2|].
    constructor; [now apply HG|]. apply Forall_app. now split.
  - destruct (runVisitor next ctx k (f s)) as [[s2 log2]|] eqn:E2;
      [|discriminate].
    injection Hrun as <- <-.
    destruct (IH _ _ _ (HU _ _ Hf HJ) E2) as [HJ2 HG2].
    split; [exact HJ2|]. constructor; [now apply HG | exact HG2].
  - now apply (IH s s s' log).
Qed.

(** Whether the steps of the visitor run to their end depends on [next]
    returning for the nodes they pass to it. *)
Lemma runVisitor_returns
    (next : WalkNext Payload OutputStream OutputProfile Extra) (ctx : Node)
    (onNext : Node -> Prop) (onUpdate : (State -> State) -> Prop) :
  (forall node index items s,
      onNext node -> exists r, next node index items s = Some r) ->
  forall p : Prog,
    Each onNext onUpdate p ->
    forall s, exists r, runVisitor next ctx p s = Some r.
Proof.
  intros HN p HE.
  induction HE as [| node index items k Hn Hk IH | f k Hf Hk IH | k Hk IH];
    intros s; simpl.
  - eauto.
  - destruct (HN node index items s Hn) as [[s1 log1] E1]. rewrite E1.
    destruct (IH s1) as [[s2 log2] E2]. rewrite E2. eauto.
  - destruct (IH (f s)) as [[s2 log2] E2]. rewrite E2. eauto.
  - apply IH.
Qed.

Lemma callback_returns (depth : nat) :
  descends visitor ->
  forall ctx index items s,
    height ctx <= depth ->
    exists r, callback visitor depth ctx index items s = Some r.
Proof.
  intros Hd.
  induction depth as [|depth IH]; intros ctx index items s Hh.
  - destruct ctx. rewrite height_node in Hh. lia.
  - simpl.
    destruct (runVisitor_returns (nextWith (callback visitor depth)) ctx
                (fun node => In node (node_children ctx))
                (@keepsPosition Payload OutputStream OutputProfile Extra))
      with (p := visitor ctx index items)
           (s := set_current_parent ctx (Some (current s)) s)
      as [[s2 log] E].
    + intros node index' items' s1 Hin. unfold nextWith.
      destruct (IH node index' items' (push (current s1) s1))
        as [[s' log'] E'].
      * apply height_child in Hin. lia.
      * rewrite E'. eauto.
    + apply Hd.
    + rewrite E. eauto.
Qed.

Lemma forEach_returns (depth : nat) (items rest : list Node) :
  descends visitor ->
  forestHeight rest <= depth ->
  forall index s, exists r, forEach visitor depth items rest index s = Some r.
Proof.
  intros Hd. induction rest as [|ctx rest IH]; intros Hh index s; simpl.
  - eauto.
  - simpl in Hh.
    destruct (callback_returns depth Hd ctx index items s) as [[s1 log1] E1];
      [lia|].
    rewrite E1.
    destruct (IH ltac:(lia) (S index) s1) as [[s2 log2] E2].
    rewrite E2. eauto.
Qed.

(** ** What [callback] restores, for every visitor *)

Lemma callback_restores (depth : nat) (ctx : Node) (index : nat)
    (items : list Node) (s : State) (r : State * Entries) :
  callback visitor depth ctx index items s = Some r ->
  current (fst r) = current s /\ parent (fst r) = parent s.
Proof.
  destruct depth as [|depth]; simpl; [discriminate|].
  destruct (runVisitor _ _ _ _) as [[s2 log]|]; [|discriminate].
  intros [= <-]. split; reflexivity.
Qed.


(** ** Every push is paired with a pop *)

Lemma callback_ancestors :
  (forall ctx index items,
      Each (fun _ => True)
        (@keepsAncestors Payload OutputStream OutputProfile Extra)
        (visitor ctx index items)) ->
  forall depth ctx index items s (r : State * Entries),
    callback visitor depth ctx index items s = Some r ->
    ancestors (fst r) = ancestors s.
Proof.
  intros Hv.
  induction depth as [|depth IH]; intros ctx index items s r Hr;
    simpl in Hr; [discriminate|].
  destruct (runVisitor _ _ _ _) as [[s2 log]|] eqn:E; [|discriminate].
  injection Hr as <-. cbn [fst set_current_parent ancestors].
  destruct (runVisitor_invariant (nextWith (callback visitor depth)) ctx
              (fun st => ancestors st = ancestors s) (fun _ => True)
              (fun _ => True)
              (@keepsAncestors Payload OutputStream OutputProfile Extra))
    with (p := visitor ctx index items)
         (s := set_current_parent ctx (Some (current s)) s)
         (s' := s2) (log := log) as [HJ _]; auto.
  - intros f st Hf HJ. now rewrite Hf.
  - intros node index' items' st s1 log1 _ HJ Hn. unfold nextWith in Hn.
    destruct (callback visitor depth node index' items' (push (current st) st))
      as [[s1' log1']|] eqn:E1; [|discriminate].
    injection Hn as <- <-. split; [|apply Forall_forall; auto].
    apply IH in E1. cbn [fst] in E1. cbn [pop set_ancestors ancestors].
    rewrite E1. cbn [push set_ancestors ancestors].
    now rewrite removelast_last.
Qed.

Lemma forEach_ancestors (depth : nat) (items rest : list Node) :
  (forall ctx index items,
      Each (fun _ => True)
        (@keepsAncestors Payload OutputStream OutputProfile Extra)
        (visitor ctx index items)) ->
  forall index s (r : State * Entries),
    forEach visitor depth items rest index s = Some r ->
    ancestors (fst r) = ancestors s /\
    current (fst r) = current s /\ parent (fst r) = parent s.
Proof.
  intros Hv. induction rest as [|ctx rest IH]; intros index s r Hr;
    simpl in Hr.
  - injection Hr as <-. auto.
  - destruct (callback visitor depth ctx index items s)
      as [[s1 log1]|] eqn:E1; [|discriminate].
    destruct (forEach visitor depth items rest (S index) s1)
      as [[s2 log2]|] eqn:E2; [|discriminate].
    injection Hr as <-. cbn [fst].
    pose proof (callback_ancestors Hv _ _ _ _ _ _ E1) as Ha.
    pose proof (callback_restores _ _ _ _ _ _ E1) as [Hc Hp].
    destruct (IH _ _ _ E2) as (Ha2 & Hc2 & Hp2). cbn [fst] in *.
    repeat split; congruence.
Qed.

Lemma forEach_restores (depth : nat) (items rest : list Node) :
  forall index s (r : State * Entries),
    forEach visitor depth items rest index s = Some r ->
    current (fst r) = current s /\ parent (fst r) = parent s.
Proof.
  induction rest as [|ctx rest IH]; intros index s r Hr; simpl in Hr.
  - injection Hr as <-. auto.
  - destruct (callback visitor depth ctx index items s)
      as [[s1 log1]|] eqn:E1; [|discriminate].
    destruct (forEach visitor depth items rest (S index) s1)
      as [[s2 log2]|] eqn:E2; [|discriminate].
    injection Hr as <-. cbn [fst].
    pose proof (callback_restores _ _ _ _ _ _ E1) as [Hc Hp].
    destruct (IH _ _ _ E2) as (Hc2 & Hp2). cbn [fst] in *.
    split; congruence.
Qed.

(** ** Position of the state object during the visitor's calls *)



Section Positions.

Variable roots : list Node.
Variable ancestors0 : list Node.
Variable current0 : Node.

Hypothesis Hd : descends visitor.



End Positions.

(** ** The members the walker does not own *)

Section Frame.

(** A property of the other members that the visitor's own changes
    keep. *)
Variable I : OutputStream * OutputProfile * Z * Extra -> Prop.

Hypothesis Hv :
  forall ctx index items,
    Each (fun _ => True)
      (fun f => forall s : State, I (userPart s) -> I (userPart (f s)))
      (visitor ctx index items).

Lemma callback_frame :
  forall depth ctx index items s (r : State * Entries),
    I (userPart s) ->
    callback visitor depth ctx index items s = Some r ->
    I (userPart (fst r)).
Proof.
  induction depth as [|depth IH]; intros ctx index items s r HI Hr;
    simpl in Hr; [discriminate|].
  destruct (runVisitor _ _ _ _) as [[s2 log]|] eqn:E; [|discriminate].
  injection Hr as <-. cbn [fst].
  destruct (runVisitor_invariant (nextWith (callback visitor depth)) ctx
              (fun st => I (userPart st)) (fun _ => True)
              (fun _ => True)
              (fun f => forall s : State,
                   I (userPart s) -> I (userPart (f s))))
    with (p := visitor ctx index items)
         (s := set_current_parent ctx (Some (current s)) s)
         (s' := s2) (log := log) as [HJ _]; auto.
  intros node index' items' st s1 log1 _ HJ Hn. unfold nextWith in Hn.
  destruct (callback visitor depth node index' items' (push (current st) st))
    as [[s1' log1']|] eqn:E1; [|discriminate].
  injection Hn as <- <-. split; [|apply Forall_forall; auto].
  change (I (userPart s1')).
  apply (IH node index' items' (push (current st) st) (s1', log1'));
    [exact HJ | exact E1].
Qed.

Lemma forEach_frame (depth : nat) (items rest : list Node) :
  forall index s (r : State * Entries),
    I (userPart s) ->
    forEach visitor depth items rest index s = Some r ->
    I (userPart (fst r)).
Proof.
  induction rest as [|ctx rest IH]; intros index s r HI Hr; simpl in Hr.
  - now injection Hr as <-.
  - destruct (callback visitor depth ctx index items s)
      as [[s1 log1]|] eqn:E1; [|discriminate].
    destruct (forEach visitor depth items rest (S index) s1)
      as [[s2 log2]|] eqn:E2; [|discriminate].
    injection Hr as <-. cbn [fst].
    apply (IH (S index) s1 (s2, log2)); [|exact E2].
    apply (callback_frame depth ctx index items s (s1, log1) HI E1).
Qed.

End Frame.

Section Blindness.

Hypothesis Hv : forall ctx index items, Blind (visitor ctx index items).

Lemma samePosition_refl (s : State) : samePosition s s.
Proof. repeat split. Qed.

Lemma runVisitor_blind
    (next : WalkNext Payload OutputStream OutputProfile Extra)
    (ctx : Node) :
  (forall node index items s s',
      samePosition s s' ->
      agree (next node index items s) (next node index items s')) ->
  forall p : Prog,
    Blind p ->
    forall s s',
      samePosition s s' ->
      agree (runVisitor next ctx p s) (runVisitor next ctx p s').
Proof.
  intros HN p HB.
  induction HB as [| node index items k Hk IH | f k Hf Hk IH
                   | k Hsame Hk IH];
    intros s s' Hs; simpl.
  - exists s', [(ctx, s')]. repeat split; try apply Hs.
    constructor; [|constructor]. split; [reflexivity | exact Hs].
  - specialize (HN node index items s s' Hs). unfold agree in HN.
    destruct (next node index items s) as [[s1 log1]|]; [|exact I].
    destruct HN as (s1' & log1' & -> & Hs1 & Hl1).
    specialize (IH s1 s1' Hs1). unfold agree in IH.
    destruct (runVisitor next ctx k s1) as [[s2 log2]|]; [|exact I].
    destruct IH as (s2' & log2' & -> & Hs2 & Hl2).
    exists s2', ((ctx, s') :: log1' ++ log2').
    repeat split; try apply Hs2.
    constructor; [split; [reflexivity | exact Hs]|].
    now apply Forall2_app.
  - specialize (IH (f s) (f s') (Hf s s' Hs)). unfold agree in IH.
    destruct (runVisitor next ctx k (f s)) as [[s2 log2]|]; [|exact I].
    destruct IH as (s2' & log2' & -> & Hs2 & Hl2).
    exists s2', ((ctx, s') :: log2').
    repeat split; try apply Hs2.
    constructor; [split; [reflexivity | exact Hs] | exact Hl2].
  - rewrite <- (Hsame s s' Hs). now apply IH.
Qed.

Lemma callback_blind :
  forall depth ctx index items s s',
    samePosition s s' ->
    agree (callback visitor depth ctx index items s)
      (callback visitor depth ctx index items s').
Proof.
  induction depth as [|depth IH]; intros ctx index items s s' Hs;
    simpl; [exact I|].
  destruct Hs as (Hc & Hp & Ha).
  pose proof (runVisitor_blind (nextWith (callback visitor depth)) ctx)
    as HR.
  specialize (HR ltac:(
    intros node index' items' st st' (Hc' & Hp' & Ha');
    unfold nextWith;
    specialize (IH node index' items' (push (current st) st)
                  (push (current st') st'));
    unfold agree in IH |- *;
    destruct (callback visitor depth node index' items'
                (push (current st) st)) as [[s1 log1]|]; [|exact I];
    destruct IH as (s1' & log1' & -> & (Hc1 & Hp1 & Ha1) & Hl1);
    [ repeat split; cbn [push set_ancestors current parent ancestors];
      congruence
    | exists (pop s1'), log1'; repeat split;
      cbn [pop set_ancestors current parent ancestors];
      congruence || assumption ])).
  specialize (HR (visitor ctx index items) (Hv ctx index items)
                (set_current_parent ctx (Some (current s)) s)
                (set_current_parent ctx (Some (current s')) s')).
  unfold agree in HR |- *.
  destruct (runVisitor _ _ _ (set_current_parent ctx (Some (current s)) s))
    as [[s2 log]|]; [|exact I].
  destruct HR as (s2' & log' & -> & (Hc2 & Hp2 & Ha2) & Hl).
  - repeat split; cbn [set_current_parent current parent ancestors];
      congruence.
  - exists (set_current_parent (current s') (parent s') s2'), log'.
    repeat split; cbn [set_current_parent current parent ancestors];
      congruence || assumption.
Qed.

Lemma forEach_blind (depth : nat) (items rest : list Node) :
  forall index s s',
    samePosition s s' ->
    agree (forEach visitor depth items rest index s)
      (forEach visitor depth items rest index s').
Proof.
  induction rest as [|ctx rest IH]; intros index s s' Hs; simpl.
  - exists s', []. repeat split; try apply Hs. constructor.
  - pose proof (callback_blind depth ctx index items s s' Hs) as HC.
    unfold agree in HC.
    destruct (callback visitor depth ctx index items s)
      as [[s1 log1]|]; [|exact I].
    destruct HC as (s1' & log1' & -> & Hs1 & Hl1).
    specialize (IH (S index) s1 s1' Hs1). unfold agree in IH.
    destruct (forEach visitor depth items rest (S index) s1)
      as [[s2 log2]|]; [|exact I].
    destruct IH as (s2' & log2' & -> & Hs2 & Hl2).
    exists s2', (log1' ++ log2'). repeat split; try apply Hs2.
    now apply Forall2_app.
Qed.

End Blindness.


(** C9.  The walker leaves the members [out], [profile], [field] and the
    rest of the state object alone: whatever property of them the
    visitor's own changes keep still holds when the walk returns, and
    with a visitor that does not look at them the walk runs the same from
    two state objects that agree on [current], [parent] and [ancestors].
    When the visitor's own changes keep [ancestors], every push is undone
    by its pop and [ancestors] ends with its initial contents; [current]
    and [parent] end as they began in any case.  With a visitor that
    descends into children only, a walk of enough depth returns. *)
Theorem walk_frame (abbr : Abbreviation Payload) (s0 : State) (depth : nat) :
  (forall I : OutputStream * OutputProfile * Z * Extra -> Prop,
      (forall ctx index items,
          Each (fun _ => True)
            (fun f => forall s : State, I (userPart s) -> I (userPart (f s)))
            (visitor ctx index items)) ->
      I (userPart s0) ->
      forall s' log,
        walk visitor depth abbr s0 = Some (s', log) -> I (userPart s'))
  /\
  ((forall ctx index items, Blind (visitor ctx index items)) ->
   forall s0' s' log,
     samePosition s0 s0' ->
     walk visitor depth abbr s0 = Some (s', log) ->
     exists s'' log',
       walk visitor depth abbr s0' = Some (s'', log') /\
       samePosition s' s'' /\ sameLog log log')
  /\
  ((forall ctx index items,
       Each (fun _ => True)
         (@keepsAncestors Payload OutputStream OutputProfile Extra)
         (visitor ctx index items)) ->
   forall s' log,
     walk visitor depth abbr s0 = Some (s', log) ->
     ancestors s' = ancestors s0)
  /\
  (forall s' log,
      walk visitor depth abbr s0 = Some (s', log) ->
      current s' = current s0 /\ parent s' = parent s0)
  /\
  (descends visitor ->
   forestHeight (abbr_children abbr) <= depth ->
   exists r, walk visitor depth abbr s0 = Some r).
Proof.
  unfold walk. split; [|split; [|split; [|split]]].
  - intros I Hv HI s' log Hr.
    apply (forEach_frame I Hv depth _ _ 0 s0 (s', log) HI Hr).
  - intros Hv s0' s' log Hs Hr.
    pose proof (forEach_blind Hv depth (abbr_children abbr)
                  (abbr_children abbr) 0 s0 s0' Hs) as HA.
    unfold agree in HA. rewrite Hr in HA. exact HA.
  - intros Hv s' log Hr.
    apply (forEach_ancestors _ _ _ Hv _ _ _ Hr).
  - intros s' log Hr. apply (forEach_restores _ _ _ _ _ _ Hr).
  - intros Hd Hh. now apply forEach_returns.
Qed.

End WalkFacts.

Section WalkExamples.

Import Walk SampleWalk SampleWalkView MoreSampleWalk.
Local Open Scope string_scope.
Local Open Scope list_scope.

Lemma nextEach_children (ctx : SNode) (items rest : list SNode)
    (index : nat) (U : (SState -> SState) -> Prop) :
  (forall c, In c rest -> In c (node_children ctx)) ->
  Each (fun node => In node (node_children ctx)) U
    (nextEach items rest index).
Proof.
  revert index. induction rest as [|c rest IH]; intros index Hin; simpl.
  - constructor.
  - constructor; [apply Hin; now left|].
    apply IH. intros c' Hc'. apply Hin. now right.
Qed.

Lemma sampleVisitor_descends : descends sampleVisitor.
Proof.
  intros ctx index items. unfold sampleVisitor. constructor.
  - intros s. repeat split.
  - now apply nextEach_children.
Qed.

Lemma nextEach_blind (items rest : list SNode) (index : nat) :
  Blind (nextEach items rest index).
Proof.
  revert index. induction rest as [|c rest IH]; intros index; simpl;
    constructor; auto.
Qed.

Lemma sampleVisitor_blind (ctx : SNode) (index : nat) (items : list SNode) :
  Blind (sampleVisitor ctx index items).
Proof.
  unfold sampleVisitor. constructor; [|apply nextEach_blind].
  intros s s' Hs. exact Hs.
Qed.

Lemma nextEach_each (items rest : list SNode) (index : nat)
    (U : (SState -> SState) -> Prop) :
  Each (fun _ => True) U (nextEach items rest index).
Proof.
  revert index. induction rest as [|c rest IH]; intros index; simpl;
    constructor; auto.
Qed.

(** The record of the walk of [(ul > (li > a) + li) + nav], by names:
    three levels, with the ancestors seen at each step. *)
Example walk_sample_log :
  option_map (fun r => map viewEntry (snd r))
    (walk sampleVisitor 3 sampleAbbreviation sampleState)
  = Some
      [ ("ul", [], "ul", Some EmptyString);
        ("ul", [], "ul", Some EmptyString);
        ("li", ["ul"], "li", Some "ul");
        ("li", ["ul"], "li", Some "ul");
        ("a", ["ul"; "li"], "a", Some "li");
        ("a", ["ul"; "li"], "a", Some "li");
        ("li", ["ul"], "li", Some "ul");
        ("ul", [], "ul", Some EmptyString);
        ("li", ["ul"], "li", Some "ul");
        ("li", ["ul"], "li", Some "ul");
        ("ul", [], "ul", Some EmptyString);
        ("nav", [], "nav", Some EmptyString);
        ("nav", [], "nav", Some EmptyString) ].
Proof. reflexivity. Qed.



(** Worked instance of C9 on that walk: the field counter, which only the
    visitor advances, stays positive, the walk from a state object with
    another output stream runs alike, and the walker's members end as
    they began. *)
Lemma walk_frame_witness :
  exists s' log,
    walk sampleVisitor 3 sampleAbbreviation sampleState = Some (s', log) /\
    fieldPositive (userPart s') /\
    (exists s'' log',
        walk sampleVisitor 3 sampleAbbreviation
          (writeName "html" sampleState) = Some (s'', log') /\
        samePosition s' s'' /\ sameLog log log') /\
    ancestors s' = [] /\ current s' = placeholder /\ parent s' = None.
Proof.
  destruct (walk_frame string (list string) unit unit
              sampleVisitor sampleAbbreviation sampleState 3)
    as (Hframe & Hblind & Hanc & Hrest & Hret).
  destruct (Hret sampleVisitor_descends ltac:(simpl; lia)) as [[s' log] E].
  exists s', log. split; [exact E|]. split; [|split; [|split]].
  - apply (Hframe fieldPositive) with (log := log); [| |exact E].
    + intros ctx index items. unfold sampleVisitor. constructor.
      * intros s Hs. unfold fieldPositive in *. simpl in *. lia.
      * apply nextEach_each.
    + unfold fieldPositive. simpl. lia.
  - apply (Hblind sampleVisitor_blind (writeName "html" sampleState) s' log);
      [|exact E].
    repeat split.
  - apply (Hanc ltac:(intros ctx index items; unfold sampleVisitor;
                      constructor; [intros s; reflexivity
                                   | apply nextEach_each]) s' log E).
  - apply (Hrest s' log E).
Defined.

End WalkExamples.

(** * Further properties of the best-match resolver *)

Section BestMatchMore.

Import Stylesheet.

Variable calculateScore : option string -> option string -> Q.
Context {T : Type} `{Matchable T}.
Variable abbr : option string.

Local Abbreviation sc := (scoreOf calculateScore abbr).
Local Abbreviation loop := (findBestMatch_loop calculateScore abbr).

(** What the loop returns is the recorded item or an item of the list; an
    item of the list it returns has a perfect score, or a positive score
    that reaches [minScore] and the recorded maximum and that no item of
    the list exceeds. *)
Lemma loop_result (items : list T) (minScore : Q) :
  forall m M x,
    (0 <= M)%Q ->
    loop items minScore m M = Some x ->
    (m = Some x /\ (minScore <= M)%Q /\
     forall y, In y items -> (sc y == 0)%Q \/ (sc y < M)%Q)
    \/
    (In x items /\
     ((sc x == 1)%Q \/
      ((0 < sc x)%Q /\ (minScore <= sc x)%Q /\ (M <= sc x)%Q /\
       forall y, In y items -> (sc y <= sc x)%Q))).
Proof.
  induction items as [|item items IH]; intros m M x HM Hr; simpl in Hr.
  - destruct (Qle_bool minScore M) eqn:G; [|discriminate].
    apply Qle_bool_iff in G. left.
    split; [exact Hr|]. split; [exact G|]. intros y [].
  - destruct (Qeq_bool (sc item) 1) eqn:E1.
    + injection Hr as <-. apply Qeq_bool_iff in E1. right.
      split; [now left | now left].
    + destruct (negb (Qeq_bool (sc item) 0) && Qle_bool M (sc item)) eqn:G.
      * apply (records_iff calculateScore abbr) in G. destruct G as [Gz Gm].
        assert (Gp : (0 < sc item)%Q).
        { destruct (Qlt_le_dec 0 (sc item)) as [L | L]; [exact L|].
          exfalso. apply Gz. lra. }
        destruct (IH (Some item) (sc item) x (Qlt_le_weak _ _ Gp) Hr)
          as [(Hm & Hmin & Hall) | (Hin & Hx)].
        -- injection Hm as <-. right. split; [now left|]. right.
           split; [lra|]. split; [exact Hmin|]. split; [exact Gm|].
           intros y [<- | Hy]; [lra|].
           destruct (Hall y Hy) as [Z | Z]; lra.
        -- right. split; [now right|].
           destruct Hx as [Hx | (Hp & Hmin & Hge & Hall)]; [now left | right].
           split; [exact Hp|]. split; [exact Hmin|]. split; [lra|].
           intros y [<- | Hy]; [lra | now apply Hall].
      * apply (records_not calculateScore abbr) in G.
        destruct (IH m M x HM Hr)
          as [(Hm & Hmin & Hall) | (Hin & Hx)].
        -- left. split; [exact Hm|]. split; [exact Hmin|].
           intros y [<- | Hy]; [exact G | now apply Hall].
        -- right. split; [now right|].
           destruct Hx as [Hx | (Hp & Hmin & Hge & Hall)]; [now left | right].
           split; [exact Hp|]. split; [exact Hmin|]. split; [exact Hge|].
           intros y [<- | Hy]; [|now apply Hall].
           destruct G as [G | G]; lra.
Qed.

Lemma findBestMatch_in (items : list T) (minScore : option Q) (x : T) :
  findBestMatch calculateScore abbr items minScore = Some x -> In x items.
Proof.
  unfold findBestMatch. intros Hr.
  destruct (loop_result items (default 0%Q minScore) None 0%Q x
              (Qle_refl 0) Hr) as [(Hm & _) | (Hin & _)];
    [discriminate | exact Hin].
Qed.

(** X1.  Whatever [findBestMatch] returns is one of the items, and it has a
    perfect score, or a positive score that reaches the minimum score and
    that no item exceeds. *)
Theorem findBestMatch_result (items : list T) (minScore : option Q) (x : T) :
  findBestMatch calculateScore abbr items minScore = Some x ->
  In x items /\
  ((sc x == 1)%Q \/
   ((0 < sc x)%Q /\ (default 0%Q minScore <= sc x)%Q /\
    forall y, In y items -> (sc y <= sc x)%Q)).
Proof.
  unfold findBestMatch. intros Hr.
  destruct (loop_result items (default 0%Q minScore) None 0%Q x
              (Qle_refl 0) Hr) as [(Hm & _) | (Hin & Hx)]; [discriminate|].
  split; [exact Hin|].
  destruct Hx as [Hx | (Hp & Hmin & _ & Hall)]; [now left | right; auto].
Qed.

Lemma loop_threshold (items : list T) (minScore minScore' : Q) :
  (minScore' <= minScore)%Q ->
  forall m M x,
    loop items minScore m M = Some x ->
    loop items minScore' m M = Some x.
Proof.
  intros Hle. induction items as [|item items IH]; intros m M x Hr;
    simpl in *.
  - destruct (Qle_bool minScore M) eqn:G; [|discriminate].
    apply Qle_bool_iff in G.
    assert (G' : Qle_bool minScore' M = true) by (apply Qle_bool_iff; lra).
    now rewrite G'.
  - destruct (Qeq_bool (sc item) 1); [exact Hr|].
    destruct (negb (Qeq_bool (sc item) 0) && Qle_bool M (sc item));
      now apply IH.
Qed.

(** X2.  Lowering the minimum score never loses a match: what is returned
    under a threshold is returned under every lower one, and under none. *)
Theorem findBestMatch_lower_threshold (items : list T)
    (minScore minScore' : Q) (x : T) :
  (minScore' <= minScore)%Q ->
  findBestMatch calculateScore abbr items (Some minScore) = Some x ->
  findBestMatch calculateScore abbr items (Some minScore') = Some x /\
  ((0 <= minScore)%Q ->
   findBestMatch calculateScore abbr items None = Some x).
Proof.
  unfold findBestMatch. simpl. intros Hle Hr. split.
  - now apply (loop_threshold items minScore minScore' Hle).
  - intros H0. now apply (loop_threshold items minScore 0%Q H0).
Qed.

End BestMatchMore.

Section BestMatchMoreExamples.

Import Stylesheet Samples.
Local Open Scope string_scope.

Lemma findBestMatch_result_witness :
  In "pos" ["p"; "pos"; "position"] /\
  ((scoreOf prefixScore (Some "po") "pos" == 1)%Q \/
   ((0 < scoreOf prefixScore (Some "po") "pos")%Q /\
    (default 0%Q (Some (1 # 2)) <= scoreOf prefixScore (Some "po") "pos")%Q /\
    forall y, In y ["p"; "pos"; "position"] ->
              (scoreOf prefixScore (Some "po") y
               <= scoreOf prefixScore (Some "po") "pos")%Q)).
Proof.
  apply (findBestMatch_result prefixScore (Some "po")
           ["p"; "pos"; "position"] (Some (1 # 2)) "pos").
  reflexivity.
Defined.

Lemma findBestMatch_lower_threshold_witness :
  findBestMatch prefixScore (Some "po") ["p"; "pos"; "position"]
    (Some (1 # 4)) = Some "pos" /\
  ((0 <= 1 # 2)%Q ->
   findBestMatch prefixScore (Some "po") ["p"; "pos"; "position"] None
   = Some "pos").
Proof.
  apply (findBestMatch_lower_threshold prefixScore (Some "po")
           ["p"; "pos"; "position"] (1 # 2) (1 # 4) "pos").
  - vm_compute. discriminate.
  - reflexivity.
Defined.

End BestMatchMoreExamples.

(** * Further properties of the unmatched remainder *)

Section RemainderMore.

Import Stylesheet.
Local Open Scope string_scope.

Lemma append_empty_r (s : string) : s ++ EmptyString = s.
Proof.
  induction s as [|a s IH]; [reflexivity|].
  change (String a (s ++ EmptyString) = String a s). now f_equal.
Qed.

Lemma Subseq_refl (s : string) : Subseq s s.
Proof. induction s; constructor; assumption. Qed.

Lemma Subseq_prefix (p s : string) :
  Subseq p s -> forall a b, p = a ++ b -> Subseq a s.
Proof.
  induction 1 as [s | p c s Hs IH | p c s Hs IH]; intros a b E.
  - destruct a; [constructor | discriminate].
  - apply Subseq_skip. now apply (IH a b).
  - destruct a as [|c' a]; [constructor|].
    change (String c p = String c' (a ++ b)) in E.
    injection E as <- E. apply Subseq_take. now apply (IH a b).
Qed.

(** X3.  The remainder is empty exactly when the characters of the
    abbreviation occur, in order, in the string it is matched against; in
    particular an abbreviation leaves nothing unmatched against itself. *)
Theorem getUnmatchedPart_empty_iff (abbr str : string) :
  (getUnmatchedPart abbr str = EmptyString <-> Subseq abbr str) /\
  getUnmatchedPart abbr abbr = EmptyString.
Proof.
  assert (Hiff : forall a s,
             getUnmatchedPart a s = EmptyString <-> Subseq a s).
  { intros a s. rewrite getUnmatchedPart_remainderFrom.
    destruct (remainderFrom_longest s a 0) as (p & Hp & Sp & Hr).
    change (skip 0 s) with s in Sp, Hr. split.
    - intros E. rewrite E, append_empty_r in Hp. now subst p.
    - intros Sa. destruct Hr as [Hr | (c & r & Hr & Hno)]; [exact Hr|].
      exfalso. apply Hno. rewrite Hr in Hp.
      apply (Subseq_prefix a s Sa (p ++ String c EmptyString) r).
      now rewrite append_snoc. }
  split; [apply Hiff|]. apply Hiff, Subseq_refl.
Qed.

End RemainderMore.

(** * Further properties of numeric unit inference *)

Section NumericMore.

Import Stylesheet.
Local Open Scope list_scope.

Lemma toInt32_range (value : Q) :
  (- 2 ^ 31 <= toInt32 value < 2 ^ 31)%Z.
Proof.
  unfold toInt32.
  set (t := (Qnum value ÷ Z.pos (Qden value))%Z).
  pose proof (Z.mod_pos_bound t (2 ^ 32) ltac:(lia)) as Hm.
  destruct (Z.leb_spec (2 ^ 31) (t mod 2 ^ 32)); lia.
Qed.

(** The test [value === (value | 0)] holds only for the whole numbers of
    the signed 32-bit range. *)
Lemma int32_test_only (value : Q) :
  Qeq_bool value (inject_Z (toInt32 value)) = true ->
  isWhole value /\ inInt32 value.
Proof.
  intros E. apply Qeq_bool_iff in E. split.
  - now exists (toInt32 value).
  - pose proof (toInt32_range value) as [Hlo Hhi]. unfold inInt32.
    rewrite E. rewrite <- Zle_Qle, <- Zlt_Qlt. lia.
Qed.

(** X4.  A number other than zero and without a unit, in a property that is
    not unitless, receives the integer unit exactly when it is a whole
    number of the signed 32-bit range, and the float unit in every other
    case, fractions and whole numbers outside that range alike. *)
Theorem resolveNumericToken_default_unit (config : Config)
    (name : option string) (value : Q) :
  ~ (value == 0)%Q ->
  includes (unitless config) name = false ->
  (isWhole value /\ inInt32 value ->
   resolveNumericToken config name (NumberValue value EmptyString)
   = NumberValue value (intUnit config)) /\
  (~ (isWhole value /\ inInt32 value) ->
   resolveNumericToken config name (NumberValue value EmptyString)
   = NumberValue value (floatUnit config)).
Proof.
  intros Hnz Hin. unfold resolveNumericToken. cbn [truthyUnit].
  apply Qeq_bool_false in Hnz. rewrite Hnz, Hin. cbn [negb andb]. split.
  - intros [Hw Hr]. now rewrite int32_test_true.
  - intros Hn.
    destruct (Qeq_bool value (inject_Z (toInt32 value))) eqn:E;
      [|reflexivity].
    exfalso. apply Hn. now apply int32_test_only.
Qed.

Lemma resolveNumericToken_no_bare_number (config : Config)
    (name : option string) (t : Value) :
  includes (unitless config) name = false ->
  intUnit config <> EmptyString ->
  floatUnit config <> EmptyString ->
  isBareNumber (resolveNumericToken config name t) = false.
Proof.
  intros Hin Hint Hfloat.
  destruct t as [s | value unit | r g b a raw | s q | f args | i s];
    try reflexivity.
  unfold resolveNumericToken.
  destruct (truthyUnit unit) eqn:Hu.
  - cbn [isBareNumber]. now rewrite (aliasOr_truthy _ _ Hu).
  - rewrite Hin. cbn [negb]. rewrite andb_true_r.
    destruct (Qeq_bool value 0) eqn:Hz; cbn [negb].
    + cbn [isBareNumber]. rewrite Hz. cbn [negb]. now rewrite andb_false_r.
    + cbn [isBareNumber].
      destruct (Qeq_bool value (inject_Z (toInt32 value)));
        [destruct (intUnit config) | destruct (floatUnit config)];
        try contradiction; reflexivity.
Qed.

(** X5.  In a property that is not unitless, with default units that are
    not empty, unit inference leaves no number other than zero without a
    unit among the tokens of the node's values. *)
Theorem resolveNumericValue_units_complete (node : CSSProperty)
    (config : Config) :
  includes (unitless config) (node_name node) = false ->
  intUnit config <> EmptyString ->
  floatUnit config <> EmptyString ->
  Forall (fun t => isBareNumber t = false)
    (topTokens (resolveNumericValue node config)).
Proof.
  intros Hin Hint Hfloat. unfold topTokens, resolveNumericValue, set_value.
  cbn [node_value].
  induction (node_value node) as [|[vs] values IH]; [constructor|].
  cbn [map flat_map css_value]. apply Forall_app. split; [|exact IH].
  induction vs as [|t vs IHvs]; constructor; [|exact IHvs].
  now apply resolveNumericToken_no_bare_number.
Qed.

Lemma resolveNumericToken_unitless (config : Config) (name : option string)
    (t : Value) :
  includes (unitless config) name = true ->
  isNumberWithUnit t = false ->
  resolveNumericToken config name t = t.
Proof.
  intros Hin Hu.
  destruct t as [s | value unit | r g b a raw | s q | f args | i s];
    try reflexivity.
  cbn [isNumberWithUnit] in Hu. unfold resolveNumericToken.
  rewrite Hu, Hin. cbn [negb]. now rewrite andb_false_r.
Qed.

Lemma resolveNumericValue_keeps_unitless (node : CSSProperty)
    (config : Config) :
  includes (unitless config) (node_name node) = true ->
  Forall (fun t => isNumberWithUnit t = false) (topTokens node) ->
  resolveNumericValue node config = node.
Proof.
  intros Hin Hall. destruct node as [name values important].
  unfold resolveNumericValue, set_value, topTokens in *.
  cbn [node_name node_value node_important] in *. f_equal.
  induction values as [|[vs] values IH]; [reflexivity|].
  cbn [map flat_map css_value] in *. apply Forall_app in Hall.
  destruct Hall as [Hvs Hvalues]. f_equal; [|now apply IH]. f_equal.
  induction vs as [|t vs IHvs]; [reflexivity|].
  inversion Hvs; subst. cbn [map]. f_equal; [|now apply IHvs].
  now apply resolveNumericToken_unitless.
Qed.

(** X6.  In a unitless property, a node in which no number carries a unit
    comes back from unit inference exactly as it was: no number receives a
    default unit. *)
Theorem resolveNumericValue_unitless_property (node : CSSProperty)
    (config : Config) :
  includes (unitless config) (node_name node) = true ->
  Forall (fun t => isNumberWithUnit t = false) (topTokens node) ->
  resolveNumericValue node config = node.
Proof. apply resolveNumericValue_keeps_unitless. Qed.

End NumericMore.

Section NumericMoreExamples.

Import Stylesheet SampleData.
Local Open Scope string_scope.
Local Open Scope list_scope.

Lemma resolveNumericToken_default_unit_witness :
  (isWhole 10 /\ inInt32 10 ->
   resolveNumericToken sampleConfig (Some "width")
     (NumberValue 10 EmptyString)
   = NumberValue 10 "px") /\
  (~ (isWhole 10 /\ inInt32 10) ->
   resolveNumericToken sampleConfig (Some "width")
     (NumberValue 10 EmptyString)
   = NumberValue 10 "em").
Proof.
  apply (resolveNumericToken_default_unit sampleConfig (Some "width") 10).
  - intros E. vm_compute in E. discriminate.
  - reflexivity.
Defined.

Lemma resolveNumericValue_units_complete_witness :
  Forall (fun t => isBareNumber t = false)
    (topTokens (resolveNumericValue (numberNode "width" (3 # 2) EmptyString)
                  sampleConfig)).
Proof.
  apply (resolveNumericValue_units_complete
           (numberNode "width" (3 # 2) EmptyString) sampleConfig).
  - reflexivity.
  - discriminate.
  - discriminate.
Defined.

Lemma resolveNumericValue_unitless_property_witness :
  resolveNumericValue (numberNode "z-index" 10 EmptyString) sampleConfig
  = numberNode "z-index" 10 EmptyString.
Proof.
  apply (resolveNumericValue_unitless_property
           (numberNode "z-index" 10 EmptyString) sampleConfig).
  - reflexivity.
  - repeat constructor.
Defined.

End NumericMoreExamples.

(** * Further properties of field wrapping *)

Section WrapMore.

Import Stylesheet.
Local Open Scope list_scope.

Variable numberToString : Q -> string.

Local Abbreviation wrap := (wrapWithField numberToString).
Local Abbreviation flat :=
  (Forall (fun t => isFieldOrLiteral t = true)).

Lemma wrapArguments_flat (il : nat) (args : list CSSValue) :
  Forall (fun arg => forall state, flat (css_value (fst (wrap arg state))))
    args ->
  forall i value state,
    flat value ->
    flat (fst (wrapArguments numberToString il args i value state)).
Proof.
  induction 1 as [|arg args Harg Hargs IH]; intros i value state Hv.
  - exact Hv.
  - cbn [wrapArguments]. specialize (Harg state).
    destruct (wrap arg state) as [wrapped state']. cbn [fst] in Harg.
    apply IH.
    destruct (negb (Nat.eqb i (il - 1))); repeat (apply Forall_app; split);
      auto; repeat constructor.
Qed.

Lemma wrapTokens_flat (vs : list Value) :
  Forall (argumentsHave
            (fun arg => forall state, flat (css_value (fst (wrap arg state)))))
    vs ->
  forall value state,
    flat value ->
    flat (fst (wrapTokens numberToString vs value state)).
Proof.
  induction 1 as [|v vs Hv Hvs IH]; intros value state Hvalue.
  - exact Hvalue.
  - destruct v as [s | n u | r g b a raw | s q | f args | i s];
      cbn [wrapTokens];
      try (apply IH; apply Forall_app; split; [exact Hvalue|];
           repeat constructor).
    cbn [argumentsHave] in Hv.
    pose proof (wrapArguments_flat (length args) args Hv 0
                  (value ++ [field (state_index state) f; literal "("])
                  (bump state)) as Ha.
    destruct (wrapArguments numberToString (length args) args 0
                (value ++ [field (state_index state) f; literal "("])
                (bump state)) as [value' state'].
    cbn [fst] in Ha. apply IH. apply Forall_app. split.
    + apply Ha. apply Forall_app. split; [exact Hvalue|]. repeat constructor.
    + repeat constructor.
Qed.

(** X7.  Whatever value tree is wrapped, the result is flat: every token of
    it is a field or a literal; no function call, number, colour or string
    token is left, at any depth. *)
Theorem wrapWithField_flat (node : CSSValue) (state : WrapState) :
  Forall (fun t => isFieldOrLiteral t = true)
    (css_value (fst (wrapWithField numberToString node state))).
Proof.
  revert state.
  induction node as [vs Hvs] using CSSValue_nested_ind.
  intros state. rewrite wrapWithField_unfold. cbn [fst css_value].
  apply wrapTokens_flat; [exact Hvs | constructor].
Qed.

Lemma wrapArguments_counter (il : nat) (args : list CSSValue) :
  Forall (fun arg => forall state,
              state_index (snd (wrap arg state))
              = state_index state + countTokens numberToString arg) args ->
  forall i value state,
    state_index (snd (wrapArguments numberToString il args i value state))
    = state_index state + length (flat_map (labels numberToString) args).
Proof.
  induction 1 as [|arg args Harg Hargs IH]; intros i value state.
  - simpl. lia.
  - cbn [wrapArguments flat_map]. specialize (Harg state).
    destruct (wrap arg state) as [wrapped state']. cbn [snd] in Harg.
    rewrite IH, Harg, length_app. unfold countTokens. lia.
Qed.

Lemma wrapTokens_counter (vs : list Value) :
  Forall (argumentsHave
            (fun arg => forall state,
                 state_index (snd (wrap arg state))
                 = state_index state + countTokens numberToString arg)) vs ->
  forall value state,
    state_index (snd (wrapTokens numberToString vs value state))
    = state_index state
      + length (flat_map (labelsOfToken numberToString) vs).
Proof.
  induction 1 as [|v vs Hv Hvs IH]; intros value state.
  - simpl. lia.
  - destruct v as [s | n u | r g b a raw | s q | f args | i s];
      cbn [wrapTokens flat_map labelsOfToken];
      try (rewrite IH, length_app; cbn [bump state_index length]; lia).
    cbn [argumentsHave] in Hv.
    pose proof (wrapArguments_counter (length args) args Hv 0
                  (value ++ [field (state_index state) f; literal "("])
                  (bump state)) as Ha.
    destruct (wrapArguments numberToString (length args) args 0
                (value ++ [field (state_index state) f; literal "("])
                (bump state)) as [value' state'].
    cbn [snd] in Ha. rewrite IH, Ha, length_app.
    cbn [bump state_index length]. lia.
Qed.

(** X8.  Whatever value tree is wrapped, the counter ends advanced by
    exactly the number of tokens that were given a field; tokens that are
    fields already take no index. *)
Theorem wrapWithField_counter (node : CSSValue) (state : WrapState) :
  state_index (snd (wrapWithField numberToString node state))
  = state_index state + countTokens numberToString node.
Proof.
  revert state.
  induction node as [vs Hvs] using CSSValue_nested_ind.
  intros state. rewrite wrapWithField_unfold. cbn [snd].
  now rewrite wrapTokens_counter.
Qed.

Lemma wrapArguments_extends (il : nat) (args : list CSSValue) :
  forall i value state,
    exists more,
      fst (wrapArguments numberToString il args i value state)
      = value ++ more.
Proof.
  induction args as [|arg args IH]; intros i value state.
  - exists []. cbn [wrapArguments fst]. now rewrite app_nil_r.
  - cbn [wrapArguments]. destruct (wrap arg state) as [wrapped state'].
    destruct (negb (Nat.eqb i (il - 1))).
    + destruct (IH (S i) ((value ++ css_value wrapped) ++ [literal ", "])
                  state') as [more E].
      rewrite E. rewrite <- !app_assoc. eauto.
    + destruct (IH (S i) (value ++ css_value wrapped) state') as [more E].
      rewrite E. rewrite <- !app_assoc. eauto.
Qed.

Lemma wrapTokens_extends (vs : list Value) :
  forall value state,
    exists more,
      fst (wrapTokens numberToString vs value state) = value ++ more.
Proof.
  induction vs as [|v vs IH]; intros value state.
  - exists []. cbn [wrapTokens fst]. now rewrite app_nil_r.
  - destruct v as [s | n u | r g b a raw | s q | f args | i s];
      cbn [wrapTokens];
      try (match goal with
           | |- context [wrapTokens _ _ (value ++ ?l) ?st] =>
               destruct (IH (value ++ l) st) as [more E];
               rewrite E, <- app_assoc; eauto
           end).
    destruct (wrapArguments_extends (length args) args 0
                (value ++ [field (state_index state) f; literal "("])
                (bump state)) as [more E].
    destruct (wrapArguments numberToString (length args) args 0
                (value ++ [field (state_index state) f; literal "("])
                (bump state)) as [value' state'].
    cbn [fst] in E.
    destruct (IH (value' ++ [literal ")"]) state') as [more' E'].
    rewrite E', E, <- !app_assoc. eauto.
Qed.

Lemma wrapWithField_starts_with_field (node : CSSValue) (state : WrapState) :
  css_value node <> [] ->
  hasField (fst (wrapWithField numberToString node state)) = true /\
  exists index name more,
    css_value (fst (wrapWithField numberToString node state))
    = Field index name :: more.
Proof.
  destruct node as [vs]. cbn [css_value]. intros Hne.
  rewrite wrapWithField_unfold. cbn [fst css_value].
  destruct vs as [|v vs]; [contradiction|].
  assert (Hfirst : exists index name more,
             fst (wrapTokens numberToString (v :: vs) [] state)
             = Field index name :: more).
  { destruct v as [s | n u | r g b a raw | s q | f args | i s];
      cbn [wrapTokens];
      try (match goal with
           | |- context [wrapTokens _ _ ([] ++ ?l) ?st] =>
               destruct (wrapTokens_extends vs ([] ++ l) st) as [more E];
               rewrite E; cbn [app field]; eauto
           end).
    destruct (wrapArguments_extends (length args) args 0
                ([] ++ [field (state_index state) f; literal "("])
                (bump state)) as [more E].
    destruct (wrapArguments numberToString (length args) args 0
                ([] ++ [field (state_index state) f; literal "("])
                (bump state)) as [value' state'].
    cbn [fst] in E.
    destruct (wrapTokens_extends vs (value' ++ [literal ")"]) state')
      as [more' E'].
    rewrite E', E. cbn [app field]. eauto. }
  destruct Hfirst as (index & name & more & E). split.
  - rewrite E. reflexivity.
  - eauto.
Qed.

(** X9.  The result of wrapping a value that holds a token holds a field:
    its first token is one, so [hasField] is true of it. *)
Theorem wrapWithField_hasField (node : CSSValue) (state : WrapState) :
  css_value node <> [] ->
  hasField (fst (wrapWithField numberToString node state)) = true /\
  exists index name more,
    css_value (fst (wrapWithField numberToString node state))
    = Field index name :: more.
Proof. apply wrapWithField_starts_with_field. Qed.

End WrapMore.

Section WrapMoreExamples.

Import Stylesheet SampleSnippets.
Local Open Scope string_scope.
Local Open Scope list_scope.

Lemma wrapWithField_hasField_witness :
  hasField (fst (wrapWithField sampleNumberToString
                   (mkCSSValue [NumberValue 2 EmptyString]) freshWrapState))
  = true /\
  exists index name more,
    css_value (fst (wrapWithField sampleNumberToString
                      (mkCSSValue [NumberValue 2 EmptyString])
                      freshWrapState))
    = Field index name :: more.
Proof.
  apply (wrapWithField_hasField sampleNumberToString
           (mkCSSValue [NumberValue 2 EmptyString]) freshWrapState).
  discriminate.
Defined.

End WrapMoreExamples.

(** * Further properties of the node resolver *)

Section ResolverMore.

Import Stylesheet.
Local Open Scope list_scope.

Variable calculateScore : option string -> option string -> Q.
Variable getKeywords : CSSSnippetProperty -> list CSSKeywordRef.
Variable numberToString : Q -> string.

Local Abbreviation resolveNode' :=
  (resolveNode calculateScore getKeywords numberToString).
Local Abbreviation resolveAsProperty' :=
  (resolveAsProperty calculateScore getKeywords numberToString).
Local Abbreviation resolveAsPropertyValue' :=
  (resolveAsPropertyValue calculateScore getKeywords).
Local Abbreviation resolveSnippetKeyword' :=
  (resolveSnippetKeyword calculateScore getKeywords).
Local Abbreviation resolveGlobalKeyword' :=
  (resolveGlobalKeyword calculateScore).

Lemma resolveSnippetKeyword_shape (node : CSSProperty) (kw : string)
    (sn : CSSSnippetProperty) (minScore : option Q)
    (r : CSSProperty * bool) :
  resolveSnippetKeyword' node kw sn minScore = Ok r ->
  (r = (node, false)) \/
  (exists ref v,
      In ref (getKeywords sn) /\
      nth_error (prop_value sn) (ref_index ref) = Some v /\
      r = (set_value v node, true)).
Proof.
  unfold resolveSnippetKeyword.
  destruct (findBestMatch calculateScore (Some kw) (getKeywords sn) minScore)
    as [ref|] eqn:E.
  - apply findBestMatch_in in E.
    destruct (nth_error (prop_value sn) (ref_index ref)) as [v|] eqn:En;
      [|discriminate].
    intros [= <-]. right. eauto.
  - intros [= <-]. now left.
Qed.

Lemma resolveSnippetKeyword_returns (node : CSSProperty) (kw : string)
    (sn : CSSSnippetProperty) (minScore : option Q) :
  refsInRange getKeywords ->
  exists r, resolveSnippetKeyword' node kw sn minScore = Ok r.
Proof.
  intros Hrange. unfold resolveSnippetKeyword.
  destruct (findBestMatch calculateScore (Some kw) (getKeywords sn) minScore)
    as [ref|] eqn:E; [|eauto].
  apply findBestMatch_in in E. apply Hrange in E.
  apply nth_error_Some in E.
  destruct (nth_error (prop_value sn) (ref_index ref)); [eauto | congruence].
Qed.

Lemma resolveGlobalKeyword_shape (node : CSSProperty) (kw : string)
    (config : Config) (minScore : option Q) :
  resolveGlobalKeyword' node kw config minScore = (node, false) \/
  exists g,
    In g (keywords config) /\ g <> EmptyString /\
    resolveGlobalKeyword' node kw config minScore
    = (set_value [literalValue g] node, true).
Proof.
  unfold resolveGlobalKeyword.
  destruct (findBestMatch calculateScore (Some kw) (keywords config) minScore)
    as [g|] eqn:E; [|now left].
  apply findBestMatch_in in E.
  destruct g as [|c g]; [now left | right].
  exists (String c g). repeat split; [exact E | discriminate].
Qed.

Lemma resolveAsProperty_shape (node : CSSProperty)
    (sn : CSSSnippetProperty) (config : Config) (n' : CSSProperty) :
  resolveAsProperty' node sn config = Ok n' ->
  exists v, n' = set_value v (set_name (Some (property sn)) node).
Proof.
  unfold resolveAsProperty. cbn [node_value set_name].
  destruct (node_value node) as [|v0 values] eqn:Ev.
  - destruct (node_name node) as [abbr|]; [|discriminate].
    destruct (resolveSnippetKeyword' (set_name (Some (property sn)) node)
                (getUnmatchedPart abbr (prop_key sn)) sn None)
      as [r|] eqn:E; [|discriminate].
    cbn [bind].
    destruct (resolveSnippetKeyword_shape _ _ _ _ _ E)
      as [-> | (ref & v & _ & _ & ->)]; cbn [fst snd].
    + destruct (prop_value sn) as [|defaultValue alternatives];
        intros [= <-]; [|eauto].
      exists []. unfold set_value, set_name. cbn. now rewrite Ev.
    + intros [= <-]. eauto.
  - destruct (getSingleKeyword (set_name (Some (property sn)) node))
      as [kw|].
    + destruct (resolveSnippetKeyword' (set_name (Some (property sn)) node)
                  kw sn None) as [r|] eqn:E; [|discriminate].
      cbn [bind].
      destruct (resolveSnippetKeyword_shape _ _ _ _ _ E)
        as [-> | (ref & v & _ & _ & ->)]; cbn [fst snd].
      * destruct (resolveGlobalKeyword_shape
                    (set_name (Some (property sn)) node) kw config None)
          as [Eg | (g & _ & _ & Eg)]; rewrite Eg; cbn [fst];
          intros [= <-]; [|eauto].
        exists (v0 :: values). unfold set_value, set_name. cbn.
        now rewrite Ev.
      * intros [= <-]. eauto.
    + intros [= <-]. exists (v0 :: values). unfold set_value, set_name. cbn.
      now rewrite Ev.
Qed.

(** X10.  When [resolveAsProperty] returns, the node bears the property
    name of the snippet, whatever the abbreviation was and whichever way
    the value was resolved; only the name and the value differ from the
    node given. *)
Theorem resolveAsProperty_name (node : CSSProperty)
    (sn : CSSSnippetProperty) (config : Config) (n' : CSSProperty) :
  resolveAsProperty' node sn config = Ok n' ->
  node_name n' = Some (property sn) /\
  node_important n' = node_important node.
Proof.
  intros Hr. destruct (resolveAsProperty_shape _ _ _ _ Hr) as [v ->].
  split; reflexivity.
Qed.

(** X11.  The value installed from the default value of a snippet holds a
    tab-stop field as soon as the default value holds a token: either it
    had fields and is taken as it is, or every value of it is wrapped. *)
Theorem resolveAsProperty_default_has_field (node : CSSProperty)
    (sn : CSSSnippetProperty) (config : Config) (abbr : string)
    (defaultValue : list CSSValue) (alternatives : list (list CSSValue)) :
  node_value node = [] ->
  node_name node = Some abbr ->
  findBestMatch calculateScore
    (Some (getUnmatchedPart abbr (prop_key sn))) (getKeywords sn) None
  = None ->
  prop_value sn = defaultValue :: alternatives ->
  (exists v, In v defaultValue /\ css_value v <> []) ->
  exists n',
    resolveAsProperty' node sn config = Ok n' /\
    existsb hasField (node_value n') = true.
Proof.
  intros Hval Hname Hnone Hdefault (v & Hin & Hne).
  unfold resolveAsProperty, resolveSnippetKeyword.
  cbn [node_value set_name]. rewrite Hval, Hname, Hnone, Hdefault.
  cbn [bind snd fst]. eexists. split; [reflexivity|].
  cbn [set_value node_value].
  destruct (existsb hasField defaultValue) eqn:E; [exact E|].
  apply existsb_exists.
  exists (fst (wrapWithField numberToString v freshWrapState)). split.
  - apply in_map_iff. eauto.
  - now apply wrapWithField_starts_with_field.
Qed.

Lemma resolveNumericValue_name (node : CSSProperty) (config : Config) :
  node_name (resolveNumericValue node config) = node_name node /\
  node_important (resolveNumericValue node config) = node_important node.
Proof. split; reflexivity. Qed.

(** X12.  A node with a value that is not a single literal, matched to a
    property snippet, keeps its value and takes the property name, and
    unit inference then goes by the property name, not by the abbreviation
    typed: in a unitless property its numbers stay without unit. *)
Theorem resolveNode_explicit_value (node : CSSProperty)
    (snippets : list CSSSnippet) (config : Config)
    (p : CSSSnippetProperty) :
  contextOf config = None ->
  findBestMatch calculateScore (node_name node) snippets
    (Some (fuzzySearchMinScore config)) = Some (Property p) ->
  node_value node <> [] ->
  getSingleKeyword node = None ->
  resolveNode' node snippets config
  = Ok (resolveNumericValue (set_name (Some (property p)) node) config) /\
  (includes (unitless config) (Some (property p)) = true ->
   Forall (fun t => isNumberWithUnit t = false) (topTokens node) ->
   resolveNode' node snippets config
   = Ok (set_name (Some (property p)) node)).
Proof.
  intros Hctx Hmatch Hne Hkw.
  assert (E : resolveNode' node snippets config
              = Ok (resolveNumericValue (set_name (Some (property p)) node)
                      config)).
  { unfold resolveNode. rewrite Hctx, Hmatch. unfold resolveAsProperty.
    cbn [node_value set_name].
    destruct (node_value node) as [|v0 values] eqn:Ev; [contradiction|].
    assert (Hkw' : getSingleKeyword (set_name (Some (property p)) node)
                   = None).
    { unfold getSingleKeyword in *. cbn [node_value set_name]. exact Hkw. }
    now rewrite Hkw'. }
  split; [exact E|]. intros Hin Hall. rewrite E. f_equal.
  now apply resolveNumericValue_keeps_unitless.
Qed.

(** X13.  A node matched to a raw snippet comes out without a name and
    with the text of the snippet as its one literal, which unit inference
    leaves alone; what the node held before is dropped. *)
Theorem resolveNode_raw_snippet (node : CSSProperty)
    (snippets : list CSSSnippet) (config : Config) (r : CSSSnippetRaw) :
  contextOf config = None ->
  findBestMatch calculateScore (node_name node) snippets
    (Some (fuzzySearchMinScore config)) = Some (Raw r) ->
  resolveNode' node snippets config
  = Ok {| node_name := None;
          node_value := [mkCSSValue [Literal (raw_value r)]];
          node_important := node_important node |}.
Proof.
  intros Hctx Hmatch. unfold resolveNode. now rewrite Hctx, Hmatch.
Qed.

Lemma resolveAsPropertyValue_shape (node : CSSProperty) (config : Config)
    (snippet : option CSSSnippetProperty) (n' : CSSProperty) :
  resolveAsPropertyValue' node config snippet = Ok n' ->
  n' = node \/
  (exists g,
      In g (keywords config) /\ g <> EmptyString /\
      n' = set_value [literalValue g] node) \/
  (exists sn ref v,
      snippet = Some sn /\ In ref (getKeywords sn) /\
      nth_error (prop_value sn) (ref_index ref) = Some v /\
      n' = set_value v node).
Proof.
  unfold resolveAsPropertyValue.
  destruct (getSingleKeyword node) as [kw|]; [|intros [= <-]; now left].
  destruct snippet as [sn|].
  - destruct (resolveSnippetKeyword' node kw sn
                (Some (fuzzySearchMinScore config))) as [r|] eqn:E;
      [|discriminate].
    cbn [bind].
    destruct (resolveSnippetKeyword_shape _ _ _ _ _ E)
      as [-> | (ref & v & Hin & Hv & ->)]; cbn [fst snd].
    + destruct (resolveGlobalKeyword_shape node kw config
                  (Some (fuzzySearchMinScore config)))
        as [Eg | (g & Hg & Hne & Eg)]; rewrite Eg; cbn [fst];
        intros [= <-]; [now left | right; left; eauto].
    + intros [= <-]. right. right. exists sn, ref, v. auto.
  - destruct (resolveGlobalKeyword_shape node kw config
                (Some (fuzzySearchMinScore config)))
      as [Eg | (g & Hg & Hne & Eg)]; rewrite Eg; cbn [fst];
      intros [= <-]; [now left | right; left; eauto].
Qed.

(** X14.  In context mode [resolveNode] never touches the name of the node
    and never matches it against the dictionary: the node keeps its name,
    present or absent, whatever the snippets are. *)
Theorem resolveNode_context_keeps_name (node : CSSProperty)
    (snippets : list CSSSnippet) (config : Config) (ctx : string)
    (n' : CSSProperty) :
  contextOf config = Some ctx ->
  resolveNode' node snippets config = Ok n' ->
  node_name n' = node_name node /\
  node_important n' = node_important node.
Proof.
  intros Hctx. unfold resolveNode. rewrite Hctx.
  destruct (resolveAsPropertyValue' node config (findProperty ctx snippets))
    as [n1|] eqn:E; [|discriminate].
  cbn [bind]. intros [= <-].
  destruct (resolveAsPropertyValue_shape _ _ _ _ E)
    as [-> | [(g & _ & _ & ->) | (sn & ref & v & _ & _ & _ & ->)]];
    split; reflexivity.
Qed.

(** X15.  [resolveAsPropertyValue] invents no value: the node comes back
    as it was, or with one literal that is a non-empty keyword of the
    configuration, or with the value of the given snippet that one of its
    keyword references points to. *)
Theorem resolveAsPropertyValue_sources (node : CSSProperty) (config : Config)
    (snippet : option CSSSnippetProperty) (n' : CSSProperty) :
  resolveAsPropertyValue' node config snippet = Ok n' ->
  n' = node \/
  (exists g,
      In g (keywords config) /\ g <> EmptyString /\
      n' = set_value [literalValue g] node) \/
  (exists sn ref v,
      snippet = Some sn /\ In ref (getKeywords sn) /\
      nth_error (prop_value sn) (ref_index ref) = Some v /\
      n' = set_value v node).
Proof. apply resolveAsPropertyValue_shape. Qed.

Lemma resolveAsPropertyValue_returns (node : CSSProperty) (config : Config)
    (snippet : option CSSSnippetProperty) :
  refsInRange getKeywords ->
  exists n', resolveAsPropertyValue' node config snippet = Ok n'.
Proof.
  intros Hrange. unfold resolveAsPropertyValue.
  destruct (getSingleKeyword node) as [kw|]; [|eauto].
  destruct snippet as [sn|]; [|eauto].
  destruct (resolveSnippetKeyword_returns node kw sn
              (Some (fuzzySearchMinScore config)) Hrange) as [r E].
  rewrite E. cbn [bind]. destruct (snd r); eauto.
Qed.

Lemma resolveAsProperty_returns (node : CSSProperty)
    (sn : CSSSnippetProperty) (config : Config) :
  refsInRange getKeywords ->
  node_name node <> None \/ node_value node <> [] ->
  exists n', resolveAsProperty' node sn config = Ok n'.
Proof.
  intros Hrange Hnode. unfold resolveAsProperty. cbn [node_value set_name].
  destruct (node_value node) as [|v0 values] eqn:Ev.
  - destruct (node_name node) as [abbr|];
      [|destruct Hnode; contradiction].
    destruct (resolveSnippetKeyword_returns
                (set_name (Some (property sn)) node)
                (getUnmatchedPart abbr (prop_key sn)) sn None Hrange)
      as [r E].
    rewrite E. cbn [bind]. destruct (snd r); [eauto|].
    destruct (prop_value sn); eauto.
  - destruct (getSingleKeyword (set_name (Some (property sn)) node))
      as [kw|]; [|eauto].
    destruct (resolveSnippetKeyword_returns
                (set_name (Some (property sn)) node) kw sn None Hrange)
      as [r E].
    rewrite E. cbn [bind]. destruct (snd r); eauto.
Qed.

(** X16.  When every keyword reference points into the values of its
    snippet, [resolveNode] raises in one case only: outside context mode,
    for a node without name and without value that the scorer nevertheless
    matches to a property snippet.  A node with a name or a value, and any
    node in context mode, is resolved. *)
Theorem resolveNode_raises_iff (node : CSSProperty)
    (snippets : list CSSSnippet) (config : Config) :
  refsInRange getKeywords ->
  (resolveNode' node snippets config = Throw <->
   contextOf config = None /\ node_name node = None /\
   node_value node = [] /\
   exists p,
     findBestMatch calculateScore None snippets
       (Some (fuzzySearchMinScore config)) = Some (Property p)).
Proof.
  intros Hrange. unfold resolveNode. split.
  - destruct (contextOf config) as [ctx|] eqn:Hctx.
    + destruct (resolveAsPropertyValue_returns node config
                  (findProperty ctx snippets) Hrange) as [n' E].
      rewrite E. discriminate.
    + destruct (findBestMatch calculateScore (node_name node) snippets
                  (Some (fuzzySearchMinScore config))) as [[r | p]|] eqn:Em;
        try discriminate.
      destruct (node_name node) as [abbr|] eqn:En.
      * destruct (resolveAsProperty_returns node p config Hrange) as [n' E];
          [left; congruence|].
        rewrite E. discriminate.
      * destruct (node_value node) as [|v0 values] eqn:Ev.
        -- intros _. repeat split. eauto.
        -- destruct (resolveAsProperty_returns node p config Hrange)
             as [n' E]; [right; congruence|].
           rewrite E. discriminate.
  - intros (Hctx & Hname & Hval & p & Hm).
    rewrite Hctx, Hname, Hm. unfold resolveAsProperty.
    cbn [node_value set_name]. now rewrite Hval, Hname.
Qed.

(** X17.  The snippet looked up for a context is the first property snippet
    of the list whose property name is the context; raw snippets and
    property snippets of other names before it are passed over, and
    nothing is found exactly when no property snippet bears the name. *)
Theorem findProperty_first (ctx : string) (snippets : list CSSSnippet) :
  (forall p,
      findProperty ctx snippets = Some p ->
      exists before after,
        snippets = before ++ Property p :: after /\
        property p = ctx /\
        forall q, In (Property q) before -> property q <> ctx) /\
  (findProperty ctx snippets = None <->
   forall q, In (Property q) snippets -> property q <> ctx).
Proof.
  induction snippets as [|s snippets [IHsome IHnone]].
  - split; [discriminate|]. split; [intros _ q [] | reflexivity].
  - destruct s as [r | p0]; cbn [findProperty].
    + split.
      * intros p Hp.
        destruct (IHsome p Hp) as (before & after & -> & Hc & Hb).
        exists (Raw r :: before), after. repeat split; auto.
        intros q [Hq | Hq]; [discriminate | auto].
      * rewrite IHnone. split.
        -- intros Hall q [Hq | Hq]; [discriminate | auto].
        -- intros Hall q Hq. apply Hall. now right.
    + destruct (String.eqb (property p0) ctx) eqn:E.
      * apply String.eqb_eq in E. split.
        -- intros p [= <-]. exists [], snippets.
           repeat split; auto; intros q [].
        -- split; [discriminate|]. intros Hall. exfalso.
           apply (Hall p0); [now left | exact E].
      * apply String.eqb_neq in E. split.
        -- intros p Hp.
           destruct (IHsome p Hp) as (before & after & -> & Hc & Hb).
           exists (Property p0 :: before), after. repeat split; auto.
           intros q [[= <-] | Hq]; auto.
        -- rewrite IHnone. split.
           ++ intros Hall q [[= <-] | Hq]; auto.
           ++ intros Hall q Hq. apply Hall. now right.
Qed.

End ResolverMore.

Section ResolverMoreExamples.

Import Stylesheet Samples SampleData SampleSnippets MoreSamples.
Local Open Scope string_scope.
Local Open Scope list_scope.

Lemma literalKeywords_range (alternatives : list (list CSSValue)) :
  forall i ref,
    In ref (literalKeywords alternatives i) ->
    i <= ref_index ref < i + length alternatives.
Proof.
  induction alternatives as [|alt alternatives IH]; intros i ref Hin;
    [destruct Hin|].
  assert (Hrest : In ref (literalKeywords alternatives (S i)) ->
                  i <= ref_index ref < i + length (alt :: alternatives)).
  { intros H. apply IH in H. simpl. lia. }
  destruct alt as [|[[|[kw | | | | |] vs]] alt']; simpl in Hin; auto.
  destruct Hin as [<- | Hin]; [simpl; lia | auto].
Qed.

Lemma sampleKeywords_inRange : refsInRange sampleKeywords.
Proof.
  intros sn ref Hin. apply literalKeywords_range in Hin. lia.
Qed.

Lemma resolveAsProperty_name_witness :
  node_name (set_value [mkCSSValue [Literal "absolute"]]
               (set_name (Some "position") (literalNode (Some "pos") "abs")))
  = Some (property posSnippet) /\
  node_important (set_value [mkCSSValue [Literal "absolute"]]
                    (set_name (Some "position")
                       (literalNode (Some "pos") "abs")))
  = node_important (literalNode (Some "pos") "abs").
Proof.
  apply (resolveAsProperty_name prefixScore sampleKeywords
           sampleNumberToString (literalNode (Some "pos") "abs") posSnippet
           sampleConfig).
  reflexivity.
Defined.

Lemma resolveAsProperty_default_has_field_witness :
  exists n',
    resolveAsProperty prefixScore sampleKeywords sampleNumberToString
      (emptyNode "trf") transformSnippet sampleConfig = Ok n' /\
    existsb hasField (node_value n') = true.
Proof.
  apply (resolveAsProperty_default_has_field prefixScore sampleKeywords
           sampleNumberToString (emptyNode "trf") transformSnippet
           sampleConfig "trf" (hd [] (prop_value transformSnippet)) []).
  - reflexivity.
  - reflexivity.
  - reflexivity.
  - reflexivity.
  - eexists. split; [left; reflexivity | discriminate].
Defined.

Lemma resolveNode_explicit_value_witness :
  resolveNode prefixScore sampleKeywords sampleNumberToString
    (numberNode "z" 10 EmptyString) [Property zIndexSnippet] sampleConfig
  = Ok (resolveNumericValue
          (set_name (Some "z-index") (numberNode "z" 10 EmptyString))
          sampleConfig) /\
  resolveNode prefixScore sampleKeywords sampleNumberToString
    (numberNode "z" 10 EmptyString) [Property zIndexSnippet] sampleConfig
  = Ok (numberNode "z-index" 10 EmptyString).
Proof.
  destruct (resolveNode_explicit_value prefixScore sampleKeywords
              sampleNumberToString (numberNode "z" 10 EmptyString)
              [Property zIndexSnippet] sampleConfig zIndexSnippet)
    as [H1 H2].
  - reflexivity.
  - reflexivity.
  - discriminate.
  - reflexivity.
  - split; [exact H1|]. apply H2; [reflexivity | repeat constructor].
Defined.

Lemma resolveNode_raw_snippet_witness :
  resolveNode prefixScore sampleKeywords sampleNumberToString
    (numberNode "imp" 10 EmptyString) [Raw importantSnippet] sampleConfig
  = Ok {| node_name := None;
          node_value := [mkCSSValue [Literal "!important"]];
          node_important := false |}.
Proof.
  apply (resolveNode_raw_snippet prefixScore sampleKeywords
           sampleNumberToString (numberNode "imp" 10 EmptyString)
           [Raw importantSnippet] sampleConfig importantSnippet).
  - reflexivity.
  - reflexivity.
Defined.

Lemma resolveNode_context_keeps_name_witness :
  node_name (set_value [mkCSSValue [Literal "absolute"]]
               (literalNode None "abs"))
  = node_name (literalNode None "abs") /\
  node_important (set_value [mkCSSValue [Literal "absolute"]]
                    (literalNode None "abs"))
  = node_important (literalNode None "abs").
Proof.
  apply (resolveNode_context_keeps_name prefixScore sampleKeywords
           sampleNumberToString (literalNode None "abs")
           [Property posSnippet] contextConfig "position").
  - reflexivity.
  - reflexivity.
Defined.

Lemma resolveAsPropertyValue_sources_witness :
  set_value [mkCSSValue [Literal "absolute"]] (literalNode None "abs")
  = literalNode None "abs" \/
  (exists g,
      In g (keywords contextConfig) /\ g <> EmptyString /\
      set_value [mkCSSValue [Literal "absolute"]] (literalNode None "abs")
      = set_value [literalValue g] (literalNode None "abs")) \/
  (exists sn ref v,
      Some posSnippet = Some sn /\ In ref (sampleKeywords sn) /\
      nth_error (prop_value sn) (ref_index ref) = Some v /\
      set_value [mkCSSValue [Literal "absolute"]] (literalNode None "abs")
      = set_value v (literalNode None "abs")).
Proof.
  apply (resolveAsPropertyValue_sources prefixScore sampleKeywords
           (literalNode None "abs") contextConfig (Some posSnippet)).
  reflexivity.
Defined.

Lemma resolveNode_raises_iff_witness :
  resolveNode halfScore sampleKeywords sampleNumberToString
    bareNode [Property posSnippet] sampleConfig = Throw.
Proof.
  apply (proj2 (resolveNode_raises_iff halfScore sampleKeywords
                  sampleNumberToString bareNode [Property posSnippet]
                  sampleConfig sampleKeywords_inRange)).
  repeat split. exists posSnippet. reflexivity.
Defined.

Lemma findProperty_first_witness :
  exists before after,
    [Raw importantSnippet; Property zIndexSnippet; Property posSnippet]
    = before ++ Property posSnippet :: after /\
    property posSnippet = "position" /\
    forall q, In (Property q) before -> property q <> "position".
Proof.
  apply (proj1 (findProperty_first "position"
                  [Raw importantSnippet; Property zIndexSnippet;
                   Property posSnippet]) posSnippet).
  reflexivity.
Defined.

End ResolverMoreExamples.

(** * Further properties of the tree walker *)

Section WalkOrder.

Import Walk WalkClients.
Local Open Scope list_scope.

Variables Payload OutputProfile Extra : Type.

Local Abbreviation Node := (AbbreviationNode Payload).
Local Abbreviation State :=
  (WalkState Payload (list (Visit Payload)) OutputProfile Extra).
Local Abbreviation visitor := (@recordingVisitor Payload OutputProfile Extra).
Local Abbreviation nextAll' := (@nextAll Payload OutputProfile Extra).
Local Abbreviation below := (@visitsBelow Payload).

Lemma visitsBelow_node (ctx : Node) :
  visitsBelow ctx
  = visitsEach below (node_children ctx) (node_children ctx) 0.
Proof. now destruct ctx. Qed.

(** The calls of [next] for the children [rest], given that [callback]
    writes down the node and what lies below it. *)
Lemma nextAll_records (depth : nat) (ctx : Node) (items : list Node) :
  (forall c index items' s,
      height c <= depth ->
      exists s' log,
        callback visitor depth c index items' s = Some (s', log) /\
        out s' = out s ++ (c, index, items') :: visitsBelow c) ->
  forall rest index s,
    forestHeight rest <= depth ->
    exists s' log,
      runVisitor (nextWith (callback visitor depth)) ctx
        (nextAll' items rest index) s = Some (s', log) /\
      out s' = out s ++ visitsEach below items rest index.
Proof.
  intros Hcb. induction rest as [|c rest IH]; intros index s Hh.
  - exists s, [(ctx, s)]. split; [reflexivity|].
    cbn [visitsEach]. now rewrite app_nil_r.
  - change (forestHeight (c :: rest))
      with (Nat.max (height c) (forestHeight rest)) in Hh.
    assert (Hc : height c <= depth) by lia.
    assert (Hrest : forestHeight rest <= depth) by lia.
    cbn [nextAll runVisitor]. unfold nextWith at 1.
    destruct (Hcb c index items (push (current s) s) Hc)
      as (s1 & log1 & E1 & Ho1).
    rewrite E1.
    destruct (IH (S index) (pop s1) Hrest) as (s2 & log2 & E2 & Ho2).
    rewrite E2. eexists. eexists. split; [reflexivity|].
    rewrite Ho2. cbn [pop set_ancestors out]. rewrite Ho1.
    cbn [push set_ancestors out visitsEach].
    now rewrite <- app_assoc.
Qed.

Lemma callback_records (depth : nat) :
  forall ctx index items (s : State),
    height ctx <= depth ->
    exists s' log,
      callback visitor depth ctx index items s = Some (s', log) /\
      out s' = out s ++ (ctx, index, items) :: visitsBelow ctx.
Proof.
  induction depth as [|depth IH]; intros ctx index items s Hh.
  - destruct ctx. rewrite height_node in Hh. lia.
  - set (s1 := set_current_parent ctx (Some (current s)) s).
    assert (Erun :
      runVisitor (nextWith (callback visitor depth)) ctx
        (visitor ctx index items) s1
      = match runVisitor (nextWith (callback visitor depth)) ctx
                (nextAll' (node_children ctx) (node_children ctx) 0)
                (record ctx index items s1) with
        | Some (s2, log2) => Some (s2, (ctx, s1) :: log2)
        | None => None
        end) by reflexivity.
    change (callback visitor (S depth) ctx index items s)
      with (match runVisitor (nextWith (callback visitor depth)) ctx
                    (visitor ctx index items) s1 with
            | Some (s2, log) =>
                Some (set_current_parent (current s) (parent s) s2, log)
            | None => None
            end).
    rewrite Erun.
    destruct (nextAll_records depth ctx (node_children ctx) IH
                (node_children ctx) 0 (record ctx index items s1))
      as (s2 & log2 & E2 & Ho2).
    + destruct ctx as [payload children]. rewrite height_node in Hh.
      cbn [node_children]. lia.
    + rewrite E2. eexists. eexists. split; [reflexivity|].
      cbn [set_current_parent out]. rewrite Ho2.
      unfold s1. cbn [record set_current_parent out].
      rewrite <- app_assoc. cbn [app]. now rewrite visitsBelow_node.
Qed.

Lemma forEach_records (depth : nat) (items : list Node) :
  forall rest index (s : State),
    forestHeight rest <= depth ->
    exists s' log,
      forEach visitor depth items rest index s = Some (s', log) /\
      out s' = out s ++ visitsEach below items rest index.
Proof.
  induction rest as [|c rest IH]; intros index s Hh.
  - exists s, []. split; [reflexivity|].
    cbn [visitsEach]. now rewrite app_nil_r.
  - change (forestHeight (c :: rest))
      with (Nat.max (height c) (forestHeight rest)) in Hh.
    assert (Hc : height c <= depth) by lia.
    assert (Hrest : forestHeight rest <= depth) by lia.
    cbn [forEach].
    destruct (callback_records depth c index items s Hc)
      as (s1 & log1 & E1 & Ho1).
    rewrite E1.
    destruct (IH (S index) s1 Hrest) as (s2 & log2 & E2 & Ho2).
    rewrite E2. eexists. eexists. split; [reflexivity|].
    rewrite Ho2, Ho1. cbn [visitsEach]. now rewrite <- app_assoc.
Qed.

(** X18.  With a visitor that calls [next] for every child of its node in
    turn, the walk calls the visitor for the nodes of the tree in
    pre-order, each once, a node before its descendants and these before
    its later siblings, each time with the position of the node among its
    siblings and with the list of these siblings. *)
Theorem walk_preorder (abbr : Abbreviation Payload) (s0 : State)
    (depth : nat) :
  forestHeight (abbr_children abbr) <= depth ->
  exists s' log,
    walk visitor depth abbr s0 = Some (s', log) /\
    out s' = out s0 ++ visitsOfForest (abbr_children abbr).
Proof.
  intros Hh. unfold walk, visitsOfForest. now apply forEach_records.
Qed.

End WalkOrder.

Section WalkShallow.

Import Walk.
Local Open Scope list_scope.

Variables Payload OutputStream OutputProfile Extra : Type.

Local Abbreviation Node := (AbbreviationNode Payload).
Local Abbreviation State :=
  (WalkState Payload OutputStream OutputProfile Extra).
Local Abbreviation Entries := (Log Payload OutputStream OutputProfile Extra).

Variable visitor : Visitor Payload OutputStream OutputProfile Extra.

Hypothesis Hnever :
  forall ctx index items,
    Each (fun _ => False)
      (@keepsPosition Payload OutputStream OutputProfile Extra)
      (visitor ctx index items).

Lemma callback_shallow (ctx : Node) (index : nat) (items : list Node)
    (s : State) :
  exists s' log,
    callback visitor 1 ctx index items s = Some (s', log) /\
    ancestors s' = ancestors s /\ current s' = current s /\
    parent s' = parent s /\
    Forall (fun e => fst e = ctx /\ ancestors (snd e) = ancestors s /\
                     current (snd e) = ctx /\
                     parent (snd e) = Some (current s)) log.
Proof.
  change (callback visitor 1 ctx index items s)
    with (match runVisitor (nextWith (callback visitor 0)) ctx
                  (visitor ctx index items)
                  (set_current_parent ctx (Some (current s)) s) with
          | Some (s2, log) =>
              Some (set_current_parent (current s) (parent s) s2, log)
          | None => None
          end).
  destruct (runVisitor_returns Payload OutputStream OutputProfile Extra
              (nextWith (callback visitor 0)) ctx
              (fun _ => False)
              (@keepsPosition Payload OutputStream OutputProfile Extra))
    with (p := visitor ctx index items)
         (s := set_current_parent ctx (Some (current s)) s)
    as [[s2 log] E]; [intros ? ? ? ? [] | apply Hnever |].
  rewrite E.
  destruct (runVisitor_invariant Payload OutputStream OutputProfile Extra
              (nextWith (callback visitor 0)) ctx
              (fun st => ancestors st = ancestors s /\ current st = ctx /\
                         parent st = Some (current s))
              (fun e => fst e = ctx /\ ancestors (snd e) = ancestors s /\
                        current (snd e) = ctx /\
                        parent (snd e) = Some (current s))
              (fun _ => False)
              (@keepsPosition Payload OutputStream OutputProfile Extra))
    with (p := visitor ctx index items)
         (s := set_current_parent ctx (Some (current s)) s)
         (s' := s2) (log := log) as [(Ha & Hc & Hp) HG]; auto.
  - intros f st Hf (Ha & Hc & Hp). destruct (Hf st) as (Fc & Fp & Fa).
    repeat split; congruence.
  - intros node index' items' st s1 log1 [].
  - exists (set_current_parent (current s) (parent s) s2), log.
    split; [reflexivity|]. cbn [set_current_parent ancestors current parent].
    auto.
Qed.

(** X19.  With a visitor that never calls [next], the walk does not
    descend: it returns with a nesting depth of 1 whatever the height of
    the tree, the visitor is called for top-level nodes only, and at every
    step [ancestors] holds what it held before the walk. *)
Theorem walk_without_next (abbr : Abbreviation Payload) (s0 : State) :
  exists s' log,
    walk visitor 1 abbr s0 = Some (s', log) /\
    ancestors s' = ancestors s0 /\
    Forall (fun e => In (fst e) (abbr_children abbr) /\
                     ancestors (snd e) = ancestors s0 /\
                     current (snd e) = fst e /\
                     parent (snd e) = Some (current s0)) log.
Proof.
  unfold walk.
  assert (Hall : forall rest index (s : State),
             (forall c, In c rest -> In c (abbr_children abbr)) ->
             exists s' log,
               forEach visitor 1 (abbr_children abbr) rest index s
               = Some (s', log) /\
               ancestors s' = ancestors s /\ current s' = current s /\
               Forall (fun e => In (fst e) (abbr_children abbr) /\
                                ancestors (snd e) = ancestors s /\
                                current (snd e) = fst e /\
                                parent (snd e) = Some (current s)) log).
  { induction rest as [|c rest IH]; intros index s Hin.
    - exists s, []. repeat split. constructor.
    - cbn [forEach].
      destruct (callback_shallow c index (abbr_children abbr) s)
        as (s1 & log1 & E1 & Ha1 & Hc1 & Hp1 & HG1).
      rewrite E1.
      destruct (IH (S index) s1 ltac:(intros c' Hc'; apply Hin; now right))
        as (s2 & log2 & E2 & Ha2 & Hc2 & HG2).
      rewrite E2. eexists. eexists. split; [reflexivity|].
      split; [congruence|]. split; [congruence|].
      apply Forall_app. split.
      + revert HG1. apply List.Forall_impl.
        intros e (He & Ha & Hc & Hp). rewrite He.
        repeat split; auto. apply Hin. now left.
      + revert HG2. apply List.Forall_impl.
        intros e (He & Ha & Hc & Hp). repeat split; congruence. }
  destruct (Hall (abbr_children abbr) 0 s0 ltac:(auto))
    as (s' & log & E & Ha & Hc & HG).
  exists s', log. auto.
Qed.

End WalkShallow.

Section WalkMoreExamples.

Import Walk SampleWalk WalkClients MoreSampleWalk.
Local Open Scope string_scope.
Local Open Scope list_scope.

Lemma walk_preorder_witness :
  exists s' log,
    walk (@recordingVisitor string unit unit) 3 sampleAbbreviation
      recordingState = Some (s', log) /\
    out s' = out recordingState
             ++ visitsOfForest (abbr_children sampleAbbreviation).
Proof.
  apply (walk_preorder string unit unit sampleAbbreviation recordingState 3).
  simpl. lia.
Defined.

(** The calls of that walk: [ul], its first [li], the [a] in it, the second
    [li], then [nav]. *)
Example walk_preorder_sample :
  map (fun v => (node_payload (fst (fst v)), snd (fst v)))
    (visitsOfForest (abbr_children sampleAbbreviation))
  = [("ul", 0); ("li", 0); ("a", 0); ("li", 1); ("nav", 1)].
Proof. reflexivity. Qed.

Lemma shallowVisitor_never :
  forall ctx index items,
    Each (fun _ => False) (@keepsPosition string (list string) unit unit)
      (shallowVisitor ctx index items).
Proof.
  intros ctx index items. unfold shallowVisitor. constructor.
  - intros s. repeat split.
  - constructor.
Qed.

Lemma walk_without_next_witness :
  exists s' log,
    walk shallowVisitor 1 sampleAbbreviation sampleState = Some (s', log) /\
    ancestors s' = ancestors sampleState /\
    Forall (fun e => In (fst e) (abbr_children sampleAbbreviation) /\
                     ancestors (snd e) = ancestors sampleState /\
                     current (snd e) = fst e /\
                     parent (snd e) = Some (current sampleState)) log.
Proof.
  apply (walk_without_next string (list string) unit unit shallowVisitor
           shallowVisitor_never sampleAbbreviation sampleState).
Defined.

End WalkMoreExamples.
